(** * tarsnap_prune: retention selection, listing and keep-spec parsing

    A shallow embedding of [tarsnap_prune.py].  Python [str] values are
    [string]s (characters are code points below 256), [int] is [Z], a
    [datetime] is the record of its seven fields, the [set] of names to
    keep is a [gset string], and the insertion-ordered [dict] returned by
    [parse_arcs] is an association list.  The parts of the Python library
    the program calls ([datetime.strftime], [datetime.strptime],
    [str.split], [str.splitlines], [re.fullmatch], [list.sort]) are
    modelled next to the functions that use them. *)

From Stdlib Require Import ZArith Lia Bool List Ascii String DecimalString.
From Stdlib Require Import Sorting.Sorted Sorting.Permutation.
From stdpp Require Import gmap strings.
Import ListNotations.

Local Open Scope string_scope.
Local Open Scope Z_scope.

(** ** datetime *)

Record datetime := mkdt {
  year : Z; month : Z; day : Z;
  hour : Z; minute : Z; second : Z; microsecond : Z
}.

Definition is_leap (y : Z) : bool :=
  (y mod 4 =? 0) && (negb (y mod 100 =? 0) || (y mod 400 =? 0)).

Definition days_in_month (y m : Z) : Z :=
  if (m =? 2) && is_leap y then 29
  else match m with
       | 1 => 31 | 2 => 28 | 3 => 31 | 4 => 30 | 5 => 31 | 6 => 30
       | 7 => 31 | 8 => 31 | 9 => 30 | 10 => 31 | 11 => 30 | 12 => 31
       | _ => -1
       end.

Definition days_before_month (y m : Z) : Z :=
  match m with
  | 1 => 0 | 2 => 31 | 3 => 59 | 4 => 90 | 5 => 120 | 6 => 151
  | 7 => 181 | 8 => 212 | 9 => 243 | 10 => 273 | 11 => 304 | 12 => 334
  | _ => -1
  end + (if (2 <? m) && is_leap y then 1 else 0).

Definition days_before_year (y : Z) : Z :=
  let y := y - 1 in y * 365 + y / 4 - y / 100 + y / 400.

Definition ymd2ord (y m d : Z) : Z :=
  days_before_year y + days_before_month y m + d.

(** The values a [datetime] object can hold (its constructor raises
    [ValueError] on anything else). *)
Definition valid_datetime (t : datetime) : bool :=
  (1 <=? year t) && (year t <=? 9999) &&
  (1 <=? month t) && (month t <=? 12) &&
  (1 <=? day t) && (day t <=? days_in_month (year t) (month t)) &&
  (0 <=? hour t) && (hour t <? 24) &&
  (0 <=? minute t) && (minute t <? 60) &&
  (0 <=? second t) && (second t <? 60) &&
  (0 <=? microsecond t) && (microsecond t <? 1000000).

Definition isoweek1monday (y : Z) : Z :=
  let firstday := ymd2ord y 1 1 in
  let firstweekday := (firstday + 6) mod 7 in
  let week1monday := firstday - firstweekday in
  if 3 <? firstweekday then week1monday + 7 else week1monday.

(** [date.isocalendar], year and week number only. *)
Definition isocalendar (t : datetime) : Z * Z :=
  let y := year t in
  let week1monday := isoweek1monday y in
  let today := ymd2ord (year t) (month t) (day t) in
  let week := (today - week1monday) / 7 in
  if week <? 0 then
    let y := y - 1 in
    let week1monday := isoweek1monday y in
    let week := (today - week1monday) / 7 in
    (y, week + 1)
  else if (52 <=? week) && (isoweek1monday (y + 1) <=? today) then
    (y + 1, 0 + 1)
  else (y, week + 1).

(** Comparison of two datetimes: field by field, most significant first. *)
Definition dt_key (t : datetime) : list Z :=
  [year t; month t; day t; hour t; minute t; second t; microsecond t].

Fixpoint lex_compare (a b : list Z) : comparison :=
  match a, b with
  | [], [] => Eq
  | [], _ :: _ => Lt
  | _ :: _, [] => Gt
  | x :: a', y :: b' =>
      match x ?= y with
      | Eq => lex_compare a' b'
      | c => c
      end
  end.

Definition dt_ltb (a b : datetime) : bool :=
  match lex_compare (dt_key a) (dt_key b) with Lt => true | _ => false end.

Definition dt_le (a b : datetime) : Prop := dt_ltb b a = false.

(** ** strftime

    The directives that occur in [TIME_PATTERNS]: [%Y] and [%G] print four
    digits, [%m %d %H %M %S %V] two, each zero padded; every other
    character of the format is copied.  (Before the year 1000 some C
    libraries leave the year unpadded; the fields stay delimited.) *)

Definition digit (d : Z) : ascii := ascii_of_nat (48 + Z.to_nat d).

Definition pad2 (n : Z) : string :=
  String (digit (n / 10)) (String (digit (n mod 10)) "").

Definition pad4 (n : Z) : string :=
  String (digit (n / 1000)) (String (digit (n / 100 mod 10))
    (String (digit (n / 10 mod 10)) (String (digit (n mod 10)) ""))).

Definition directive (c : ascii) (t : datetime) : string :=
  if Ascii.eqb c "Y" then pad4 (year t)
  else if Ascii.eqb c "m" then pad2 (month t)
  else if Ascii.eqb c "d" then pad2 (day t)
  else if Ascii.eqb c "H" then pad2 (hour t)
  else if Ascii.eqb c "M" then pad2 (minute t)
  else if Ascii.eqb c "S" then pad2 (second t)
  else if Ascii.eqb c "G" then pad4 (fst (isocalendar t))
  else if Ascii.eqb c "V" then pad2 (snd (isocalendar t))
  else String "%" (String c "").

Fixpoint strftime (fmt : string) (t : datetime) : string :=
  match fmt with
  | "" => ""
  | String c rest =>
      if Ascii.eqb c "%" then
        match rest with
        | String d rest' => directive d t +:+ strftime rest' t
        | "" => "%"
        end
      else String c (strftime rest t)
  end.

(** ** The catalogue of granularities *)

Definition TIME_PATTERNS : list (string * string) :=
  [ ("s", "%Y-%m-%d %H:%M:%S");
    ("min", "%Y-%m-%d %H:%M");
    ("h", "%Y-%m-%d %H");
    ("d", "%Y-%m-%d");
    ("w", "%G-%V");
    ("mon", "%Y-%m");
    ("y", "%Y") ].

Fixpoint dict_get {V} (d : list (string * V)) (k : string) : option V :=
  match d with
  | [] => None
  | (k', v) :: d' => if String.eqb k' k then Some v else dict_get d' k
  end.

Definition dict_keys {V} (d : list (string * V)) : list string := map fst d.
Definition dict_values {V} (d : list (string * V)) : list V := map snd d.

(** ** Characters and strings *)

Definition LF : ascii := "010"%char.
Definition TAB : ascii := "009"%char.
Definition CR : ascii := "013"%char.

Definition code (a : ascii) : N := N_of_ascii a.

Definition is_digit (a : ascii) : bool := ((48 <=? code a) && (code a <=? 57))%N.

Definition digit_val (a : ascii) : Z := Z.of_N (code a) - 48.

(** The characters [\s] matches among code points below 256. *)
Definition is_space (a : ascii) : bool :=
  (((9 <=? code a) && (code a <=? 13)) || ((28 <=? code a) && (code a <=? 32))
   || (code a =? 133) || (code a =? 160))%N.

(** The line boundaries of [str.splitlines] among code points below 256. *)
Definition is_linebreak (a : ascii) : bool :=
  (((10 <=? code a) && (code a <=? 13)) || ((28 <=? code a) && (code a <=? 30))
   || (code a =? 133))%N.

Definition is_empty (s : string) : bool :=
  match s with "" => true | _ => false end.

(** The number a run of decimal digits spells, optionally after blanks. *)
Definition int_value (s : string) : Z :=
  fold_left (fun acc a => if is_digit a then 10 * acc + digit_val a else acc)
            (list_ascii_of_string s) 0.

(** [s.split(sep)] for a one-character separator. *)
Fixpoint split (sep : ascii) (s : string) : list string :=
  match s with
  | "" => [""]
  | String a s' =>
      if Ascii.eqb a sep then "" :: split sep s'
      else match split sep s' with
           | [] => [String a ""]
           | x :: xs => String a x :: xs
           end
  end.

(** [s.splitlines()]: a final line break opens no further line, and
    [\r\n] is one boundary. *)
Fixpoint splitlines (s : string) : list string :=
  match s with
  | "" => []
  | String a s' =>
      if is_linebreak a then
        "" :: match s' with
              | String b s'' =>
                  if Ascii.eqb a CR && Ascii.eqb b LF then splitlines s''
                  else splitlines s'
              | "" => []
              end
      else match splitlines s' with
           | [] => [String a ""]
           | x :: xs => String a x :: xs
           end
  end.

(** [s.rstrip('\n')]. *)
Fixpoint rstrip_nl (s : string) : string :=
  match s with
  | "" => ""
  | String a s' =>
      let r := rstrip_nl s' in
      if Ascii.eqb a LF && is_empty r then "" else String a r
  end.

(** ** Regular expressions

    The fragment of [re] the program uses, matched the way [re] does it:
    by backtracking, alternatives and repetitions tried in priority order,
    the first complete match winning.  A repetition is over a pattern that
    consumes at least one character per round. *)

Inductive regex :=
| Eps
| Chr (p : ascii -> bool)
| Seq (r1 r2 : regex)
| Alt (r1 r2 : regex)
| Star (greedy : bool) (r : regex)
| Group (i : nat) (r : regex).

(** Captured groups, most recent first, and the unmatched rest. *)
Definition caps := list (nat * string).
Definition mres := option (caps * string).

Definition orelse (a : mres) (b : unit -> mres) : mres :=
  match a with Some m => Some m | None => b tt end.

(** The part of [s] in front of its suffix [s']. *)
Definition consumed (s s' : string) : string :=
  substring 0 (String.length s - String.length s') s.

Fixpoint rmatch (r : regex) (s : string) (c : caps)
    (k : string -> caps -> mres) {struct r} : mres :=
  match r with
  | Eps => k s c
  | Chr p =>
      match s with
      | String a s' => if p a then k s' c else None
      | "" => None
      end
  | Seq r1 r2 => rmatch r1 s c (fun s' c' => rmatch r2 s' c' k)
  | Alt r1 r2 => orelse (rmatch r1 s c k) (fun _ => rmatch r2 s c k)
  | Star greedy r' =>
      (fix loop (fuel : nat) (s : string) (c : caps) {struct fuel} : mres :=
         match fuel with
         | O => k s c
         | S fuel' =>
             let again (_ : unit) :=
               rmatch r' s c (fun s' c' =>
                 if (String.length s' <? String.length s)%nat
                 then loop fuel' s' c' else None) in
             if greedy then orelse (again tt) (fun _ => k s c)
             else orelse (k s c) again
         end) (String.length s) s c
  | Group i r' => rmatch r' s c (fun s' c' => k s' ((i, consumed s s') :: c'))
  end.

(** [pattern.match(s)]: a match of a prefix of [s]. *)
Definition re_match (r : regex) (s : string) : mres :=
  rmatch r s [] (fun s' c => Some (c, s')).

(** [pattern.fullmatch(s)]: the match has to end where [s] ends. *)
Definition at_end (s : string) (c : caps) : mres :=
  if is_empty s then Some (c, s) else None.

Definition fullmatch (r : regex) (s : string) : option caps :=
  match rmatch r s [] at_end with
  | Some (c, _) => Some c
  | None => None
  end.

(** [m.group(i)] *)
Fixpoint group (c : caps) (i : nat) : string :=
  match c with
  | [] => ""
  | (j, s) :: c' => if Nat.eqb i j then s else group c' i
  end.

Fixpoint Lit (w : string) : regex :=
  match w with
  | "" => Eps
  | String a w' => Seq (Chr (Ascii.eqb a)) (Lit w')
  end.

(** [w1|w2|...] *)
Fixpoint alts (ws : list string) : regex :=
  match ws with
  | [] => Eps
  | [w] => Lit w
  | w :: ws' => Alt (Lit w) (alts ws')
  end.

Definition Plus (r : regex) : regex := Seq r (Star true r).
Definition Opt (r : regex) : regex := Alt r Eps.

Definition in_range (lo hi : ascii) (a : ascii) : bool :=
  ((code lo <=? code a) && (code a <=? code hi))%N.

(** [(\d+)(s|min|h|d|w|mon|y)] *)
Definition KEEP_SPEC_PATTERN : regex :=
  Seq (Group 1 (Plus (Chr is_digit))) (Group 2 (alts (dict_keys TIME_PATTERNS))).

(** The pattern of [NAME_RE]: group 1 is a lazy run of [.], followed by
    an optional non-capturing group: a dash and a greedy run of [[0-9-]]. *)
Definition not_newline (a : ascii) : bool := negb (Ascii.eqb a LF).

Definition is_name_tail_char (a : ascii) : bool :=
  in_range "0" "9" a || Ascii.eqb a "-".

Definition name_suffix : regex :=
  Opt (Seq (Chr (Ascii.eqb "-")) (Star true (Chr is_name_tail_char))).

Definition NAME_RE : regex :=
  Seq (Group 1 (Star false (Chr not_newline))) name_suffix.

(** ** Archives and keep specs *)

Record Archive := mkArchive { name : string; timestamp : datetime }.

Record KeepSpec := mkKeepSpec { timepattern : string; num : Z }.

(** ** Exceptions

    [ValueError_unpack n] is the error of the assignment
    [name, ts_str = line.split('\t')] when the split has [n] fields: its
    message gives the two counts only.  [ValueError_strptime s] stands for
    the errors of [datetime.strptime(s, ...)]: their messages quote [s] or
    the unconverted rest of it, or nothing.  [RuntimeError] carries the
    message the program builds. *)

Inductive exn :=
| ValueError_unpack (n : nat)
| ValueError_strptime (ts_str : string)
| ValueError_int_digits (digits : nat)
| ValueError_null_byte
| KeyError (key : string)
| RuntimeError (msg : string)
| OSError (errno : Z)
| CalledProcessError (cmd : list string) (returncode : Z).

Inductive outcome (A : Type) :=
| Ok (a : A)
| Raise (e : exn).
Arguments Ok {A} a.
Arguments Raise {A} e.

(** ** The retention selector *)

Definition same_ts (prev_ts : option string) (ts : string) : bool :=
  match prev_ts with
  | None => false
  | Some p => String.eqb ts p
  end.

(** The loop of [arc_names_to_keep], from a given [n] and [prev_ts]. *)
Fixpoint keep_loop (ks : KeepSpec) (n : Z) (prev_ts : option string)
    (arcs : list Archive) : list string :=
  match arcs with
  | [] => []
  | arc :: rest =>
      if n =? num ks then []
      else
        let ts := strftime (timepattern ks) (timestamp arc) in
        if negb (same_ts prev_ts ts) then
          name arc :: keep_loop ks (n + 1) (Some ts) rest
        else keep_loop ks n prev_ts rest
  end.

Definition arc_names_to_keep (arcs : list Archive) (ks : KeepSpec) : list string :=
  keep_loop ks 0 None arcs.

(** [arcs.sort(key=attrgetter('timestamp'), reverse=True)].  The sort is
    stable, also when reversed, so its result is the one of a stable
    insertion sort: an archive goes in front of the first one that is not
    newer than itself. *)
Fixpoint insert_desc (x : Archive) (l : list Archive) : list Archive :=
  match l with
  | [] => [x]
  | y :: l' =>
      if dt_ltb (timestamp x) (timestamp y) then y :: insert_desc x l'
      else x :: y :: l'
  end.

Fixpoint sort_desc (l : list Archive) : list Archive :=
  match l with
  | [] => []
  | x :: l' => insert_desc x (sort_desc l')
  end.

Definition add_names (keep : gset string) (names : list string) : gset string :=
  fold_left (fun keep n => {[ n ]} ∪ keep) names keep.

Fixpoint delete_loop (keep : gset string) (arcs : list Archive) : list string :=
  match arcs with
  | [] => []
  | arc :: rest =>
      let n := name arc in
      if decide (n ∈ keep) then delete_loop keep rest
      else n :: delete_loop keep rest
  end.

(** [arc_names_to_delete] sorts the list it is given in place: the result
    is the list object as the call leaves it, and the names yielded. *)
Definition arc_names_to_delete (arcs : list Archive) (kss : list KeepSpec)
    : list Archive * list string :=
  let arcs := sort_desc arcs in
  let keep :=
    fold_left (fun keep ks => add_names keep (arc_names_to_keep arcs ks)) kss ∅ in
  (arcs, delete_loop keep arcs).

(** ** Parsing *)

(** The pattern [_strptime] compiles for the format [%Y-%m-%d %H:%M:%S]. *)
Definition D := Chr is_digit.
Definition R (lo hi : ascii) := Chr (in_range lo hi).
Definition C (a : ascii) := Chr (Ascii.eqb a).

Definition strptime_regex : regex :=
  Seq (Group 1 (Seq D (Seq D (Seq D D))))
 (Seq (C "-")
 (Seq (Group 2 (Alt (Seq (C "1") (R "0" "2")) (Alt (Seq (C "0") (R "1" "9")) (R "1" "9"))))
 (Seq (C "-")
 (Seq (Group 3 (Alt (Seq (C "3") (R "0" "1")) (Alt (Seq (R "1" "2") D)
                 (Alt (Seq (C "0") (R "1" "9")) (Alt (R "1" "9") (Seq (C " ") (R "1" "9")))))))
 (Seq (Plus (Chr is_space))
 (Seq (Group 4 (Alt (Seq (C "2") (R "0" "3")) (Alt (Seq (R "0" "1") D) D)))
 (Seq (C ":")
 (Seq (Group 5 (Alt (Seq (R "0" "5") D) D))
 (Seq (C ":")
      (Group 6 (Alt (Seq (C "6") (R "0" "1")) (Alt (Seq (R "0" "5") D) D)))))))))))).

(** [datetime.strptime(data, "%Y-%m-%d %H:%M:%S")]; [None] is a
    [ValueError]: no match, unconverted data left, or field values that
    are no date or time.  The groups of the pattern hold at most four
    characters, of which [int] gives the value. *)
Definition strptime (data : string) : option datetime :=
  match re_match strptime_regex data with
  | None => None
  | Some (c, rest) =>
      if negb (is_empty rest) then None
      else
        let t := mkdt (int_value (group c 1)) (int_value (group c 2))
                      (int_value (group c 3)) (int_value (group c 4))
                      (int_value (group c 5)) (int_value (group c 6)) 0 in
        if valid_datetime t then Some t else None
  end.

(** [result[base].append(a)] on the [defaultdict(list)]. *)
Fixpoint dd_append (d : list (string * list Archive)) (base : string) (a : Archive)
    : list (string * list Archive) :=
  match d with
  | [] => [(base, [a])]
  | (k, v) :: d' =>
      if String.eqb k base then (k, (v ++ [a])%list) :: d'
      else (k, v) :: dd_append d' base a
  end.

Definition failed_to_parse_line (line : string) : exn :=
  RuntimeError ("failed to parse line '" +:+ line +:+ "'").

Fixpoint parse_arcs_loop (lines : list string) (result : list (string * list Archive))
    : outcome (list (string * list Archive)) :=
  match lines with
  | [] => Ok result
  | line :: lines' =>
      let line := rstrip_nl line in
      match split TAB line with
      | [name; ts_str] =>
          match strptime ts_str with
          | None => Raise (ValueError_strptime ts_str)
          | Some ts =>
              match fullmatch NAME_RE name with
              | None => Raise (failed_to_parse_line line)
              | Some m =>
                  let base := group m 1 in
                  parse_arcs_loop lines' (dd_append result base (mkArchive name ts))
              end
          end
      | fields => Raise (ValueError_unpack (List.length fields))
      end
  end.

Definition parse_arcs (listing : string) : outcome (list (string * list Archive)) :=
  parse_arcs_loop (splitlines listing) [].

(** [sys.get_int_max_str_digits()], as CPython sets it by default. *)
Definition int_max_str_digits : nat := 4300.

(** [int(s)] for [s] a run of decimal digits, as group 1 of
    [KEEP_SPEC_PATTERN] is: the number the digits spell, and a
    [ValueError] when there are more of them than the limit. *)
Definition py_int (s : string) : outcome Z :=
  let digits := String.length s in
  if (int_max_str_digits <? digits)%nat then Raise (ValueError_int_digits digits)
  else Ok (int_value s).

Definition invalid_keep_spec (s : string) : exn :=
  RuntimeError ("invalid keep spec: '" +:+ s +:+ "'").

Fixpoint parse_keep_specs_loop (tokens : list string) (result : list KeepSpec)
    : outcome (list KeepSpec) :=
  match tokens with
  | [] => Ok result
  | s :: tokens' =>
      match fullmatch KEEP_SPEC_PATTERN s with
      | Some m =>
          match dict_get TIME_PATTERNS (group m 2) with
          | Some pat =>
              match py_int (group m 1) with
              | Ok n => parse_keep_specs_loop tokens' (result ++ [mkKeepSpec pat n])%list
              | Raise e => Raise e
              end
          | None => Raise (KeyError (group m 2))
          end
      | None => Raise (invalid_keep_spec s)
      end
  end.

Definition parse_keep_specs (spec : string) : outcome (list KeepSpec) :=
  parse_keep_specs_loop (split "," spec) [].

(** ** Data of the repository's tests *)

Definition arc (n : string) (y m d : Z) : Archive := mkArchive n (mkdt y m d 0 0 0 0).

Definition ks (patname : string) (n : Z) : KeepSpec :=
  mkKeepSpec (default "" (dict_get TIME_PATTERNS patname)) n.

Definition listing_r2 : string :=
  "foo" +:+ String TAB "2000-01-01 00:00:00" +:+ String LF
  ("foo-123" +:+ String TAB "1999-02-02 03:00:00" +:+ String LF
  ("bar-123" +:+ String TAB "1999-02-02 03:00:00" +:+ String LF "")).

(** [TIME_PATTERNS[key]] applied to a datetime, as the tests' [_fmt] does. *)
Definition bucket_key (key : string) (t : datetime) : option string :=
  match dict_get TIME_PATTERNS key with
  | Some pat => Some (strftime pat t)
  | None => None
  end.

(** Descending order by timestamp: no archive is older than a later one. *)
Definition newer_or_same (a b : Archive) : Prop :=
  dt_le (timestamp b) (timestamp a).

Definition sorted_desc (arcs : list Archive) : Prop :=
  StronglySorted newer_or_same arcs.

Definition same_time (t : datetime) (a : Archive) : bool :=
  match lex_compare (dt_key (timestamp a)) (dt_key t) with Eq => true | _ => false end.

(** ** The deletion set, in the words of the spec *)

(** The names the keep specs retain, as the spec words it: the union over
    the keep specs of what [arc_names_to_keep] yields. *)
Definition retained (arcs : list Archive) (kss : list KeepSpec) : list string :=
  flat_map (arc_names_to_keep arcs) kss.

Definition is_retained (arcs : list Archive) (kss : list KeepSpec) (a : Archive) : bool :=
  existsb (String.eqb (name a)) (retained arcs kss).

(** The deletion set as the spec words it: the names outside the union, in
    the order of the list the caller passed. *)
Definition names_to_delete_in_input_order (arcs : list Archive) (kss : list KeepSpec)
    : list string :=
  map name (List.filter (fun a => negb (is_retained (sort_desc arcs) kss a)) arcs).

(** ** Base names, in the words of the spec *)

Fixpoint all_chars (p : ascii -> bool) (s : string) : bool :=
  match s with
  | "" => true
  | String a s' => p a && all_chars p s'
  end.

Definition no_linebreak (a : ascii) : bool := negb (is_linebreak a).

(** [s] is a dash followed by digits and dashes only. *)
Definition is_suffix_run (s : string) : bool :=
  match s with
  | String a t => Ascii.eqb "-" a && all_chars is_name_tail_char t
  | "" => false
  end.

(** [s] without its longest suffix that is such a run. *)
Fixpoint strip_run (s : string) : string :=
  match s with
  | "" => ""
  | String a s' => if is_suffix_run s then "" else String a (strip_run s')
  end.

(** [m.group(1)] of [NAME_RE.fullmatch(name)], when there is a match. *)
Definition base_name (n : string) : option string :=
  match fullmatch NAME_RE n with
  | Some m => Some (group m 1)
  | None => None
  end.

(** [base] is [n] without a trailing run of a dash, digits and dashes: the
    longest one there is, and nothing when there is none. *)
Definition base_name_of (n base : string) : Prop :=
  exists suffix,
    n = base +:+ suffix /\
    (suffix = "" \/ is_suffix_run suffix = true) /\
    forall p q, n = p +:+ q -> is_suffix_run q = true ->
                (String.length q <= String.length suffix)%nat.

(** ** Listing lines, in the words of the spec *)

(** What one line of the listing contributes: an archive, or the error of
    the unpacking or of [strptime]. *)
Definition parse_line (line : string) : outcome Archive :=
  match split TAB line with
  | [name; ts_str] =>
      match strptime ts_str with
      | Some ts => Ok (mkArchive name ts)
      | None => Raise (ValueError_strptime ts_str)
      end
  | fields => Raise (ValueError_unpack (List.length fields))
  end.

(** A line of exactly two tab-separated fields, the second a timestamp. *)
Definition line_ok (line : string) : Prop :=
  exists name ts_str ts,
    split TAB line = [name; ts_str] /\ strptime ts_str = Some ts.

(** The archives of the lines, or the error of the first line that has one. *)
Fixpoint parse_lines (lines : list string) : outcome (list Archive) :=
  match lines with
  | [] => Ok []
  | line :: lines' =>
      match parse_line line with
      | Raise e => Raise e
      | Ok a =>
          match parse_lines lines' with
          | Raise e => Raise e
          | Ok arcs => Ok (a :: arcs)
          end
      end
  end.

(** The error the spec names for a malformed line: the one that quotes it. *)
Definition InvalidListingLine (line : string) : exn := failed_to_parse_line line.

(** ** Families *)

Definition in_family (base : string) (a : Archive) : bool :=
  match base_name (name a) with
  | Some b => String.eqb b base
  | None => false
  end.

Definition nonempty {A} (l : list A) : option (list A) :=
  match l with [] => None | _ => Some l end.

Definition family (d : list (string * list Archive)) (base : string) : list Archive :=
  match dict_get d base with Some l => l | None => [] end.

(** Filing an archive under its stripped name. *)
Definition file_archive (d : list (string * list Archive)) (a : Archive) :=
  dd_append d (strip_run (name a)) a.

(** Every family is filed once, and none is empty. *)
Definition keys_ok (d : list (string * list Archive)) : Prop :=
  List.NoDup (dict_keys d) /\ forall b, dict_get d b <> Some [].

(** ** Keep-spec tokens, in the words of the spec *)

(** [s] without its prefix [w], when it starts with [w]. *)
Fixpoint strip_prefix (w s : string) : option string :=
  match w with
  | "" => Some s
  | String a w' =>
      match s with
      | String b s' => if Ascii.eqb a b then strip_prefix w' s' else None
      | "" => None
      end
  end.

(** The leading decimal digits of [s], and what follows them. *)
Fixpoint take_digits (s : string) : string :=
  match s with
  | String a s' => if is_digit a then String a (take_digits s') else ""
  | "" => ""
  end.

Fixpoint drop_digits (s : string) : string :=
  match s with
  | String a s' => if is_digit a then drop_digits s' else s
  | "" => ""
  end.

Definition is_tag (s : string) : bool :=
  existsb (fun w => String.eqb w s) (dict_keys TIME_PATTERNS).

(** A token of the grammar: decimal digits, at least one, and a tag. *)
Definition keep_spec_token (tok : string) : Prop :=
  exists ds tag,
    tok = ds +:+ tag /\ ds <> "" /\ all_chars is_digit ds = true /\
    In tag (dict_keys TIME_PATTERNS).

Definition token_ok (tok : string) : bool :=
  negb (is_empty (take_digits tok)) && is_tag (drop_digits tok).

(** A token [parse_keep_specs] accepts: a token of the grammar whose
    count has no more digits than [int] converts. *)
Definition token_accepted (tok : string) : Prop :=
  keep_spec_token tok /\
  (String.length (take_digits tok) <= int_max_str_digits)%nat.

Definition token_accepted_b (tok : string) : bool :=
  token_ok tok && (String.length (take_digits tok) <=? int_max_str_digits)%nat.

(** What the loop of [parse_keep_specs] raises at a token that is not
    accepted. *)
Definition token_error (tok : string) : exn :=
  if token_ok tok then ValueError_int_digits (String.length (take_digits tok))
  else invalid_keep_spec tok.

(** The keep spec a token stands for. *)
Definition token_spec (tok : string) (k : KeepSpec) : Prop :=
  exists ds tag,
    tok = ds +:+ tag /\ ds <> "" /\ all_chars is_digit ds = true /\
    dict_get TIME_PATTERNS tag = Some (timepattern k) /\
    py_int ds = Ok (num k) /\ 0 <= num k.

(** The continuation of group 2 of [KEEP_SPEC_PATTERN] in a full match. *)
Definition group2_end (s : string) (c : caps) (s' : string) (c' : caps) : mres :=
  at_end s' ((2%nat, consumed s s') :: c').

(** ** The selector, in the words of the spec *)

(** The bucket key of an archive under a keep spec. *)
Definition bucket (ks : KeepSpec) (a : Archive) : string :=
  strftime (timepattern ks) (timestamp a).

(** The archives whose names [keep_loop] yields: the same loop, yielding
    the archive instead of its name. *)
Fixpoint kept_loop (ks : KeepSpec) (n : Z) (prev_ts : option string)
    (arcs : list Archive) : list Archive :=
  match arcs with
  | [] => []
  | arc :: rest =>
      if n =? num ks then []
      else
        let ts := strftime (timepattern ks) (timestamp arc) in
        if negb (same_ts prev_ts ts) then arc :: kept_loop ks (n + 1) (Some ts) rest
        else kept_loop ks n prev_ts rest
  end.

Definition kept_arcs (arcs : list Archive) (ks : KeepSpec) : list Archive :=
  kept_loop ks 0 None arcs.

(** Buckets are intervals of time: an archive between two archives of one
    bucket is in that bucket. *)
Definition convex_on (ks : KeepSpec) (l : list Archive) : Prop :=
  forall a b c, In a l -> In b l -> In c l ->
    newer_or_same a b -> newer_or_same b c ->
    bucket ks a = bucket ks c -> bucket ks b = bucket ks a.

Definition opt_list {A} (o : option A) : list A :=
  match o with Some x => [x] | None => [] end.

(** [date.toordinal]: the number of the day, 0001-01-01 being day 1. *)
Definition ordinal (t : datetime) : Z := ymd2ord (year t) (month t) (day t).

(** The date part of the order on datetimes. *)
Definition date_le (t t' : datetime) : Prop :=
  year t < year t' \/
  (year t = year t' /\
   (month t < month t' \/ (month t = month t' /\ day t <= day t'))).

(** The archives of the first case of [test_arc_names_to_keep]. *)
Definition march_to_january : list Archive :=
  [arc "1" 2000 3 15; arc "2" 2000 3 1; arc "3" 2000 2 15; arc "4" 2000 2 1;
   arc "5" 2000 1 15].

(** ** The tarsnap commands

    What [Tarsnap._run] hands to [subprocess.run]: the command line, and
    the value of [TZ] when the call sets it. *)

Definition base_command (keyfile : option string) : list string :=
  (["tarsnap"] ++ match keyfile with
                  | Some k => ["--keyfile"; k]
                  | None => []
                  end)%list.

Definition tarsnap_command (keyfile : option string) (args : list string)
    : list string :=
  (base_command keyfile ++ args)%list.

(** The arguments [Tarsnap.delete] builds, one [-f] per file name. *)
Definition file_args (filenames : list string) : list string :=
  fold_left (fun file_args fn => (file_args ++ ["-f"; fn])%list) filenames [].

Definition list_archives_command (keyfile : option string) : list string :=
  tarsnap_command keyfile ["--list-archives"; "-v"].

Definition delete_command (keyfile : option string) (filenames : list string)
    : list string :=
  tarsnap_command keyfile ("-d" :: file_args filenames).

(** ** Processes *)

(** What a run does to the outside: a line printed, a command run.
    Printing is taken to succeed, and what a command writes to its
    standard output is taken to be text. *)
Inductive event :=
| Printed (line : string)
| Ran (command : list string) (TZ : option string).

(** What the operating system does with a command line: it cannot start
    the program (no such file, argument list too long, ...), or the
    program runs to its end, with an exit status and what it wrote to its
    standard output. *)
Inductive os_answer :=
| CannotStart (errno : Z)
| Exited (returncode : Z) (stdout : string).

(** The operating system, asked with a command line and the value of [TZ]
    when the call sets it. *)
Definition system : Type := list string -> option string -> os_answer.

Record CompletedProcess := mkCompletedProcess {
  returncode : Z;
  stdout : string
}.

Definition NUL : ascii := "000"%char.

Definition has_null (s : string) : bool :=
  existsb (Ascii.eqb NUL) (list_ascii_of_string s).

(** [subprocess.run(command, env=..., check=check)].  An argument holding
    a null character is refused with a [ValueError] before the operating
    system is asked; when the program cannot be started the call raises
    [OSError]; when it ran and [check] is set, an exit status other than
    zero raises [CalledProcessError]. *)
Definition subprocess_run (os : system) (command : list string) (TZ : option string)
    (check : bool) : list event * outcome CompletedProcess :=
  if existsb has_null command then ([], Raise ValueError_null_byte)
  else
    match os command TZ with
    | CannotStart errno => ([], Raise (OSError errno))
    | Exited rc out =>
        ([Ran command TZ],
         if check && negb (rc =? 0) then Raise (CalledProcessError command rc)
         else Ok (mkCompletedProcess rc out))
    end.

Module Tarsnap.

Definition _run (os : system) (keyfile : option string) (args : list string)
    (TZ : option string) (check : bool) : list event * outcome CompletedProcess :=
  subprocess_run os (tarsnap_command keyfile args) TZ check.

Definition list_archives (os : system) (keyfile : option string)
    : list event * outcome string :=
  match _run os keyfile ["--list-archives"; "-v"] (Some "UTC") true with
  | (ran, Ok result) => (ran, Ok (stdout result))
  | (ran, Raise e) => (ran, Raise e)
  end.

Definition delete (os : system) (keyfile : option string) (filenames : list string)
    : list event * outcome unit :=
  match _run os keyfile ("-d" :: file_args filenames) None false with
  | (ran, Ok _) => (ran, Ok tt)
  | (ran, Raise e) => (ran, Raise e)
  end.

End Tarsnap.

(** ** Reporting *)

(** [str(n)] for a length. *)
Definition str_of_nat (n : nat) : string := NilEmpty.string_of_uint (Nat.to_uint n).

(** [sorted(names)]: strings in code point order. *)
Fixpoint insert_sorted (x : string) (l : list string) : list string :=
  match l with
  | [] => [x]
  | y :: l' => if String.ltb y x then y :: insert_sorted x l' else x :: y :: l'
  end.

Fixpoint sorted (l : list string) : list string :=
  match l with
  | [] => []
  | x :: l' => insert_sorted x (sorted l')
  end.

Definition print_arcs (arc_names : list string) : list event :=
  map (fun name => Printed ("  " +:+ name)) (sorted arc_names).

Definition add_arc_names (all_arc_names : gset string) (arcs : list Archive)
    : gset string :=
  fold_left (fun s arc => {[ name arc ]} ∪ s) arcs all_arc_names.

(** [all_arc_names.remove(name)] for each name, raising [KeyError] at the
    first one that is not, or no longer, in the set. *)
Fixpoint remove_names (all_arc_names : gset string) (to_delete : list string)
    : outcome (gset string) :=
  match to_delete with
  | [] => Ok all_arc_names
  | name :: rest =>
      if decide (name ∈ all_arc_names)
      then remove_names (all_arc_names ∖ {[ name ]}) rest
      else Raise (KeyError name)
  end.

Definition remaining_arc_names (arcs_dict : list (string * list Archive))
    (to_delete : list string) : outcome (gset string) :=
  remove_names (fold_left add_arc_names (dict_values arcs_dict) ∅) to_delete.

(** [plural_s(c)], of the length of [c]. *)
Definition plural_s (len : nat) : string :=
  if Nat.eqb len 1 then "" else "s".

(** [report_action]: what it prints, and whether it returns or raises. *)
Definition report_action (arcs_dict : list (string * list Archive))
    (to_delete : list string) (dry_run : bool) : list event * outcome unit :=
  let header :=
    Printed ((if dry_run then "Would" else "Will") +:+ " delete the following "
             +:+ str_of_nat (List.length to_delete) +:+ " archive"
             +:+ plural_s (List.length to_delete) +:+ ":") in
  let printed := header :: print_arcs to_delete in
  match remaining_arc_names arcs_dict to_delete with
  | Raise e => (printed, Raise e)
  | Ok remaining =>
      ((printed ++
        Printed ("Leaving the following " +:+ str_of_nat (size remaining)
                 +:+ " remaining archive" +:+ plural_s (size remaining) +:+ ":")
        :: print_arcs (elements remaining))%list, Ok tt)
  end.

(** ** The run *)

(** The loop of [run] over the families: each family is sorted in place by
    [arc_names_to_delete], and the names it yields are appended. *)
Fixpoint collect_to_delete (arcs_dict : list (string * list Archive))
    (keep_specs : list KeepSpec) (to_delete : list string)
    : list (string * list Archive) * list string :=
  match arcs_dict with
  | [] => ([], to_delete)
  | (base, arcs) :: rest =>
      let '(arcs', names) := arc_names_to_delete arcs keep_specs in
      let '(rest', to_delete') :=
        collect_to_delete rest keep_specs (to_delete ++ names)%list in
      ((base, arcs') :: rest', to_delete')
  end.

(** [run], on an operating system [os]. *)
Definition run (os : system) (keep_specs_str : string) (keyfile : option string)
    (dry_run : bool) : list event * outcome unit :=
  match parse_keep_specs keep_specs_str with
  | Raise e => ([], Raise e)
  | Ok keep_specs =>
      match Tarsnap.list_archives os keyfile with
      | (listed, Raise e) => (listed, Raise e)
      | (listed, Ok arcs_str) =>
          match parse_arcs arcs_str with
          | Raise e => (listed, Raise e)
          | Ok arcs_dict =>
              let '(arcs_dict', to_delete) :=
                collect_to_delete arcs_dict keep_specs [] in
              match report_action arcs_dict' to_delete dry_run with
              | (reported, Raise e) => ((listed ++ reported)%list, Raise e)
              | (reported, Ok _) =>
                  if dry_run then ((listed ++ reported)%list, Ok tt)
                  else if (0 <? List.length to_delete)%nat then
                    let '(deleted, result) := Tarsnap.delete os keyfile to_delete in
                    ((listed ++ reported ++
                      Printed ("Deleting " +:+ str_of_nat (List.length to_delete)
                               +:+ " archive" +:+ plural_s (List.length to_delete)
                               +:+ "...") :: deleted)%list, result)
                  else
                    ((listed ++ reported ++ [Printed "Nothing to delete."])%list, Ok tt)
              end
          end
      end
  end.

(** The commands among the events of a run. *)
Fixpoint commands (events : list event) : list (list string) :=
  match events with
  | [] => []
  | Ran command _ :: rest => command :: commands rest
  | Printed _ :: rest => commands rest
  end.

(** The names of all archives of a mapping. *)
Definition all_archives (arcs_dict : list (string * list Archive)) : list Archive :=
  concat (dict_values arcs_dict).

(** The mapping as the loop of [run] leaves it: every family sorted. *)
Definition sort_families (arcs_dict : list (string * list Archive))
    : list (string * list Archive) :=
  map (fun kv => (fst kv, sort_desc (snd kv))) arcs_dict.

(** The names the loop of [run] collects: those of each family, family
    after family. *)
Definition names_to_delete (arcs_dict : list (string * list Archive))
    (keep_specs : list KeepSpec) : list string :=
  flat_map (fun arcs => snd (arc_names_to_delete arcs keep_specs))
           (dict_values arcs_dict).

(** ** Data of further examples *)

(** A tarsnap that prints [listing] and ends with exit status 0, whatever
    it is asked. *)
Definition tarsnap_stub (listing : string) : system :=
  fun _ _ => Exited 0 listing.

(** A system on which the listing command (the call that sets [TZ])
    prints [listing], and any other command is answered with [answer]. *)
Definition tarsnap_listing_then (listing : string) (answer : os_answer) : system :=
  fun _ TZ => match TZ with Some _ => Exited 0 listing | None => answer end.

(** A count of [n] digits. *)
Definition nines (n : nat) : string := string_of_list_ascii (repeat "9"%char n).

(** The listing of one archive, named [name]. *)
Definition listing_of (name : string) : string :=
  name +:+ String TAB "2000-01-01 00:00:00" +:+ String LF "".
(** * The repository's tests, run on the model *)

Example strftime_week_2008_12_29 :
  strftime "%G-%V" (mkdt 2008 12 29 3 4 5 0) = "2009-01".
Proof. reflexivity. Qed.

Example name_re_suffix :
  fullmatch NAME_RE "name-20200101-1200" = Some [(1%nat, "name")].
Proof. reflexivity. Qed.

Example name_re_inner_dash :
  fullmatch NAME_RE "a-1-b-2" = Some [(1%nat, "a-1-b")].
Proof. reflexivity. Qed.

Example keep_spec_pattern_4mon :
  fullmatch KEEP_SPEC_PATTERN "4mon" = Some [(2%nat, "mon"); (1%nat, "4")].
Proof. reflexivity. Qed.

Example test_arc_names_to_keep_1 :
  arc_names_to_keep
    [arc "1" 2000 3 15; arc "2" 2000 3 1; arc "3" 2000 2 15; arc "4" 2000 2 1;
     arc "5" 2000 1 15] (ks "mon" 2) = ["1"; "3"].
Proof. reflexivity. Qed.

Example test_arc_names_to_keep_2 :
  arc_names_to_keep [arc "1" 2010 2 15; arc "2" 2000 2 1; arc "3" 2000 1 15]
    (ks "mon" 2) = ["1"; "2"].
Proof. reflexivity. Qed.

Example test_arc_names_to_delete_1 :
  snd (arc_names_to_delete
    [arc "4" 1999 1 2; arc "5" 1999 1 1; arc "6" 1998 1 1; arc "1" 2000 1 31;
     arc "2" 2000 1 30; arc "3" 2000 1 29] [ks "d" 2; ks "y" 2]) = ["3"; "5"; "6"].
Proof. vm_compute. reflexivity. Qed.

Example test_parse_arcs_empty : parse_arcs "" = Ok [].
Proof. reflexivity. Qed.

Example test_parse_arcs_r2 :
  parse_arcs listing_r2 =
  Ok [("foo", [mkArchive "foo" (mkdt 2000 1 1 0 0 0 0);
               mkArchive "foo-123" (mkdt 1999 2 2 3 0 0 0)]);
      ("bar", [mkArchive "bar-123" (mkdt 1999 2 2 3 0 0 0)])].
Proof. vm_compute. reflexivity. Qed.

Example test_parse_arcs_blank_line : parse_arcs (String LF "") = Raise (ValueError_unpack 1).
Proof. vm_compute. reflexivity. Qed.

Example test_parse_arcs_bad_time :
  parse_arcs ("foo" +:+ String TAB "bar") = Raise (ValueError_strptime "bar").
Proof. vm_compute. reflexivity. Qed.

Example test_parse_keep_specs_r2 :
  parse_keep_specs "2d,5w,4mon" = Ok [ks "d" 2; ks "w" 5; ks "mon" 4].
Proof. vm_compute. reflexivity. Qed.

Example test_parse_keep_specs_2x : parse_keep_specs "2x" = Raise (invalid_keep_spec "2x").
Proof. vm_compute. reflexivity. Qed.

Example test_parse_keep_specs_d : parse_keep_specs "d" = Raise (invalid_keep_spec "d").
Proof. vm_compute. reflexivity. Qed.

Example test_parse_keep_specs_empty : parse_keep_specs "" = Raise (invalid_keep_spec "").
Proof. vm_compute. reflexivity. Qed.

(** * The order on datetimes *)

Lemma lex_compare_refl a : lex_compare a a = Eq.
Proof.
  induction a as [|x a IH]; simpl; [reflexivity|].
  now rewrite Z.compare_refl.
Qed.

Lemma lex_compare_eq a : forall b, lex_compare a b = Eq -> a = b.
Proof.
  induction a as [|x a IH]; intros [|y b]; simpl; try discriminate; auto.
  destruct (Z.compare_spec x y) as [Hxy| |]; try discriminate.
  intros Hab. subst. f_equal. auto.
Qed.

Lemma lex_compare_antisym a : forall b, lex_compare b a = CompOpp (lex_compare a b).
Proof.
  induction a as [|x a IH]; intros [|y b]; simpl; auto.
  rewrite (Z.compare_antisym x y).
  destruct (x ?= y); simpl; auto.
Qed.

Lemma lex_compare_lt_trans a : forall b c,
  lex_compare a b = Lt -> lex_compare b c = Lt -> lex_compare a c = Lt.
Proof.
  induction a as [|x a IH]; intros [|y b] [|z c]; simpl; try discriminate; auto.
  destruct (Z.compare_spec x y), (Z.compare_spec y z), (Z.compare_spec x z);
    try discriminate; try lia; auto.
  apply IH.
Qed.

Lemma lex_compare_ge_trans a b c :
  lex_compare a b <> Lt -> lex_compare b c <> Lt -> lex_compare a c <> Lt.
Proof.
  intros Hab Hbc Hac.
  destruct (lex_compare a b) eqn:Eab; try congruence.
  - apply lex_compare_eq in Eab. subst. congruence.
  - destruct (lex_compare b c) eqn:Ebc; try congruence.
    + apply lex_compare_eq in Ebc. subst. congruence.
    + assert (lex_compare c b = Lt) as H1
        by (rewrite (lex_compare_antisym b c), Ebc; reflexivity).
      assert (lex_compare b a = Lt) as H2
        by (rewrite (lex_compare_antisym a b), Eab; reflexivity).
      pose proof (lex_compare_lt_trans _ _ _ H1 H2) as H3.
      rewrite (lex_compare_antisym a c), Hac in H3. discriminate.
Qed.

Lemma dt_ltb_false a b : dt_ltb a b = false <-> lex_compare (dt_key a) (dt_key b) <> Lt.
Proof.
  unfold dt_ltb. destruct (lex_compare (dt_key a) (dt_key b)); split; congruence.
Qed.

Lemma dt_ltb_asym a b : dt_ltb a b = true -> dt_ltb b a = false.
Proof.
  unfold dt_ltb. rewrite (lex_compare_antisym (dt_key a) (dt_key b)).
  destruct (lex_compare (dt_key a) (dt_key b)); simpl; congruence.
Qed.

Lemma dt_le_refl a : dt_le a a.
Proof. unfold dt_le, dt_ltb. now rewrite lex_compare_refl. Qed.

Lemma dt_le_trans a b c : dt_le a b -> dt_le b c -> dt_le a c.
Proof.
  unfold dt_le. rewrite !dt_ltb_false. intros H1 H2.
  eapply lex_compare_ge_trans; eauto.
Qed.

Lemma newer_or_same_trans : Relations_1.Transitive newer_or_same.
Proof.
  intros a b c Hab Hbc. unfold newer_or_same in *.
  eapply dt_le_trans; eauto.
Qed.

(** * The stable sort *)

Lemma insert_desc_perm x l : Permutation (x :: l) (insert_desc x l).
Proof.
  induction l as [|y l IH]; simpl; [reflexivity|].
  destruct (dt_ltb (timestamp x) (timestamp y)); [|reflexivity].
  rewrite perm_swap. now apply perm_skip.
Qed.

Lemma sort_desc_perm l : Permutation l (sort_desc l).
Proof.
  induction l as [|x l IH]; simpl; [reflexivity|].
  rewrite <- insert_desc_perm. now apply perm_skip.
Qed.

Lemma insert_desc_sorted x l :
  Sorted newer_or_same l -> Sorted newer_or_same (insert_desc x l).
Proof.
  induction l as [|y l IH]; simpl; intros Hs.
  - repeat constructor.
  - destruct (dt_ltb (timestamp x) (timestamp y)) eqn:E.
    + inversion Hs as [|? ? Hl Hhd]; subst.
      constructor; [auto|].
      destruct l as [|z l]; simpl.
      * constructor. now apply dt_ltb_asym.
      * destruct (dt_ltb (timestamp x) (timestamp z)).
        -- inversion Hhd; subst. now constructor.
        -- constructor. now apply dt_ltb_asym.
    + constructor; [assumption|]. constructor. exact E.
Qed.

Lemma sort_desc_sorted l : sorted_desc (sort_desc l).
Proof.
  apply Sorted_StronglySorted; [exact newer_or_same_trans|].
  induction l as [|x l IH]; simpl; [constructor|].
  now apply insert_desc_sorted.
Qed.

Lemma sort_desc_fixed l : sorted_desc l -> sort_desc l = l.
Proof.
  induction l as [|x l IH]; simpl; intros Hs; [reflexivity|].
  inversion Hs as [|? ? Hl Hall]; subst.
  rewrite IH by assumption.
  destruct l as [|y l]; simpl; [reflexivity|].
  inversion Hall as [|? ? Hxy _]; subst.
  unfold newer_or_same, dt_le in Hxy. now rewrite Hxy.
Qed.

Lemma sort_desc_idem l : sort_desc (sort_desc l) = sort_desc l.
Proof. apply sort_desc_fixed, sort_desc_sorted. Qed.

Lemma same_time_not_lt t x y :
  same_time t x = true -> dt_ltb (timestamp x) (timestamp y) = true ->
  same_time t y = false.
Proof.
  unfold same_time, dt_ltb. intros Hx Hlt.
  destruct (lex_compare (dt_key (timestamp x)) (dt_key t)) eqn:Ex; try discriminate.
  apply lex_compare_eq in Ex. rewrite Ex in Hlt.
  rewrite (lex_compare_antisym (dt_key t) (dt_key (timestamp y))).
  destruct (lex_compare (dt_key t) (dt_key (timestamp y))); simpl; congruence.
Qed.

Lemma insert_desc_stable t x l :
  List.filter (same_time t) (insert_desc x l) = List.filter (same_time t) (x :: l).
Proof.
  induction l as [|y l IH]; [reflexivity|].
  cbn [insert_desc].
  destruct (dt_ltb (timestamp x) (timestamp y)) eqn:E; [|reflexivity].
  cbn [List.filter] in *. rewrite IH.
  destruct (same_time t x) eqn:Ex; [|reflexivity].
  now rewrite (same_time_not_lt t x y Ex E).
Qed.

Lemma sort_desc_stable t l :
  List.filter (same_time t) (sort_desc l) = List.filter (same_time t) l.
Proof.
  induction l as [|x l IH]; [reflexivity|].
  cbn [sort_desc]. rewrite insert_desc_stable. cbn [List.filter]. now rewrite IH.
Qed.

(** * The set of names to keep *)

Lemma add_names_elem n names : forall keep : gset string,
  n ∈ add_names keep names <-> n ∈ keep \/ In n names.
Proof.
  unfold add_names.
  induction names as [|m names IH]; intros keep; simpl.
  - tauto.
  - rewrite IH. rewrite elem_of_union, elem_of_singleton.
    split; intros H; repeat destruct H as [H|H]; auto.
Qed.

Lemma keep_set_elem arcs n kss : forall keep : gset string,
  n ∈ fold_left (fun keep ks => add_names keep (arc_names_to_keep arcs ks)) kss keep
  <-> n ∈ keep \/ In n (retained arcs kss).
Proof.
  unfold retained.
  induction kss as [|k kss IH]; intros keep; simpl.
  - tauto.
  - rewrite IH, add_names_elem, in_app_iff. tauto.
Qed.

Lemma is_retained_In arcs kss a :
  is_retained arcs kss a = true <-> In (name a) (retained arcs kss).
Proof.
  unfold is_retained. rewrite existsb_exists. split.
  - intros [x [Hin Heq]]. apply String.eqb_eq in Heq. now subst.
  - intros Hin. exists (name a). split; [assumption|apply String.eqb_refl].
Qed.

Lemma delete_loop_filter (keep : gset string) (p : Archive -> bool) arcs :
  (forall a, p a = true <-> name a ∈ keep) ->
  delete_loop keep arcs = map name (List.filter (fun a => negb (p a)) arcs).
Proof.
  intros Hp. induction arcs as [|a arcs IH]; simpl; [reflexivity|].
  destruct (decide (name a ∈ keep)) as [Hin|Hout].
  - apply Hp in Hin. now rewrite Hin.
  - destruct (p a) eqn:E; [apply Hp in E; contradiction|]. simpl. now rewrite IH.
Qed.

Lemma arc_names_to_delete_snd arcs kss :
  snd (arc_names_to_delete arcs kss) =
  map name (List.filter (fun a => negb (is_retained (sort_desc arcs) kss a))
                        (sort_desc arcs)).
Proof.
  unfold arc_names_to_delete. cbn [snd].
  apply delete_loop_filter. intros a.
  rewrite is_retained_In, keep_set_elem. rewrite elem_of_empty. tauto.
Qed.

Lemma retained_same_specs arcs kss kss' :
  (forall k, In k kss <-> In k kss') ->
  forall n, In n (retained arcs kss) <-> In n (retained arcs kss').
Proof.
  intros Hsame n. unfold retained. rewrite !in_flat_map.
  split; intros [k [Hk Hn]]; exists k; split; auto; now apply Hsame.
Qed.

Lemma filter_ext_all {A} (f g : A -> bool) l :
  (forall a, f a = g a) -> List.filter f l = List.filter g l.
Proof.
  intros H. induction l as [|a l IH]; simpl; [reflexivity|].
  now rewrite H, IH.
Qed.

(** Reordering a policy, or repeating one of its keep specs, leaves the
    same keep specs in it. *)
Lemma permutation_same_specs (kss kss' : list KeepSpec) :
  Permutation kss kss' -> forall k, In k kss <-> In k kss'.
Proof.
  intros Hp k. split; apply Permutation_in; [assumption|now apply Permutation_sym].
Qed.

Lemma duplicate_same_specs (pre post : list KeepSpec) (d : KeepSpec) :
  forall k, In k (pre ++ d :: post)%list <-> In k (pre ++ d :: d :: post)%list.
Proof.
  intros k. rewrite !in_app_iff. simpl. tauto.
Qed.

(** * Claims about the selector's composition *)

(** C7: the week pattern gives ISO-8601 year and week.  Monday 2008-12-29
    and Tuesday 2008-12-30 both format as week 1 of 2009, at any time of the
    day, while Sunday 2008-12-28 is in week 52 of 2008. *)
Theorem week_bucket_iso_boundary :
  dict_get TIME_PATTERNS "w" = Some "%G-%V" /\
  forall h1 mi1 s1 us1 h2 mi2 s2 us2,
    bucket_key "w" (mkdt 2008 12 29 h1 mi1 s1 us1) = Some "2009-01" /\
    bucket_key "w" (mkdt 2008 12 29 h1 mi1 s1 us1) =
      bucket_key "w" (mkdt 2008 12 30 h2 mi2 s2 us2) /\
    bucket_key "w" (mkdt 2008 12 28 h1 mi1 s1 us1) = Some "2008-52" /\
    bucket_key "w" (mkdt 2008 12 28 h1 mi1 s1 us1) <>
      bucket_key "w" (mkdt 2008 12 29 h2 mi2 s2 us2).
Proof.
  split; [reflexivity|]. intros.
  repeat split; try reflexivity. discriminate.
Qed.

(** C2, as the code has it: the names come out in the order of the sorted
    list (newest first), not in the order the caller passed.  The list the
    call leaves behind is the stable descending sort of the input, the
    names yielded are exactly the names of its archives that no keep spec
    retains on it, and with no keep spec every name is yielded. *)
Theorem names_to_delete_sorted_complement (arcs : list Archive) (kss : list KeepSpec) :
  let sorted := fst (arc_names_to_delete arcs kss) in
  Permutation arcs sorted /\ sorted_desc sorted /\
  snd (arc_names_to_delete arcs kss) =
    map name (List.filter (fun a => negb (is_retained sorted kss a)) sorted) /\
  (forall n, In n (snd (arc_names_to_delete arcs kss)) <->
     (exists a, In a arcs /\ name a = n) /\
     ~ exists k, In k kss /\ In n (arc_names_to_keep sorted k)) /\
  snd (arc_names_to_delete arcs []) = map name (fst (arc_names_to_delete arcs [])).
Proof.
  cbn zeta. change (fst (arc_names_to_delete arcs kss)) with (sort_desc arcs).
  split; [apply sort_desc_perm|].
  split; [apply sort_desc_sorted|].
  split; [apply arc_names_to_delete_snd|].
  split.
  - intros n. rewrite arc_names_to_delete_snd, in_map_iff. split.
    + intros [a [Hn Ha]]. apply filter_In in Ha as [Ha Hr].
      split.
      * exists a. split; [|assumption].
        eapply Permutation_in; [apply Permutation_sym, sort_desc_perm|assumption].
      * intros [k [Hk Hin]]. apply negb_true_iff in Hr.
        assert (is_retained (sort_desc arcs) kss a = true) as Ht; [|congruence].
        apply is_retained_In. unfold retained. apply in_flat_map.
        exists k. subst n. auto.
    + intros [[a [Ha Hn]] Hno]. exists a. split; [assumption|].
      apply filter_In. split.
      * eapply Permutation_in; [apply sort_desc_perm|assumption].
      * apply negb_true_iff. destruct (is_retained (sort_desc arcs) kss a) eqn:E; auto.
        exfalso. apply Hno. apply is_retained_In in E. unfold retained in E.
        apply in_flat_map in E as [k [Hk Hin]]. exists k. subst n. auto.
  - rewrite arc_names_to_delete_snd.
    change (fst (arc_names_to_delete arcs [])) with (sort_desc arcs).
    f_equal. induction (sort_desc arcs) as [|a l IH]; simpl; [reflexivity|].
    f_equal. exact IH.
Qed.

(** The test of the repository: the input is not in timestamp order, and
    the names come out newest first. *)
Lemma names_to_delete_not_in_input_order :
  let arcs := [arc "4" 1999 1 2; arc "5" 1999 1 1; arc "6" 1998 1 1;
               arc "1" 2000 1 31; arc "2" 2000 1 30; arc "3" 2000 1 29] in
  let kss := [ks "d" 2; ks "y" 2] in
  snd (arc_names_to_delete arcs kss) = ["3"; "5"; "6"] /\
  names_to_delete_in_input_order arcs kss = ["5"; "6"; "3"] /\
  snd (arc_names_to_delete arcs kss) <> names_to_delete_in_input_order arcs kss.
Proof.
  cbn zeta.
  assert (snd (arc_names_to_delete
            [arc "4" 1999 1 2; arc "5" 1999 1 1; arc "6" 1998 1 1;
             arc "1" 2000 1 31; arc "2" 2000 1 30; arc "3" 2000 1 29]
            [ks "d" 2; ks "y" 2]) = ["3"; "5"; "6"]) as H1 by (vm_compute; reflexivity).
  assert (names_to_delete_in_input_order
            [arc "4" 1999 1 2; arc "5" 1999 1 1; arc "6" 1998 1 1;
             arc "1" 2000 1 31; arc "2" 2000 1 30; arc "3" 2000 1 29]
            [ks "d" 2; ks "y" 2] = ["5"; "6"; "3"]) as H2 by (vm_compute; reflexivity).
  rewrite H1, H2. repeat split. discriminate.
Qed.

(** C5: two policies made of the same keep specs, in whatever order and
    with whatever repetitions, yield the same names in the same order, and
    leave the same list.  A permutation of a policy, and a policy with one
    of its keep specs repeated, are such policies
    ([permutation_same_specs], [duplicate_same_specs]). *)
Theorem names_to_delete_policy_as_set (arcs : list Archive) (kss kss' : list KeepSpec) :
  (forall k, In k kss <-> In k kss') ->
  arc_names_to_delete arcs kss = arc_names_to_delete arcs kss'.
Proof.
  intros Hsame.
  rewrite (surjective_pairing (arc_names_to_delete arcs kss)).
  rewrite (surjective_pairing (arc_names_to_delete arcs kss')).
  rewrite !arc_names_to_delete_snd. f_equal. f_equal.
  apply filter_ext_all. intros a. f_equal.
  pose proof (retained_same_specs (sort_desc arcs) kss kss' Hsame (name a)) as H.
  rewrite <- !is_retained_In in H.
  destruct (is_retained (sort_desc arcs) kss a), (is_retained (sort_desc arcs) kss' a);
    try reflexivity.
  - symmetry. now apply H.
  - now apply H.
Qed.

Lemma names_to_delete_policy_as_set_witness :
  arc_names_to_delete [arc "1" 2000 1 31; arc "2" 2000 1 30] [ks "d" 1; ks "y" 2] =
  arc_names_to_delete [arc "1" 2000 1 31; arc "2" 2000 1 30] [ks "y" 2; ks "d" 1; ks "y" 2].
Proof.
  apply names_to_delete_policy_as_set.
  intros k. simpl. tauto.
Defined.

(** C8, as the code has it: the call reorders the list it is given.  What
    it leaves is a permutation of the same Archive records in descending
    timestamp order, archives of equal timestamp in their former order; a
    list already in that order is left as it was. *)
Theorem arc_names_to_delete_sorts_in_place (arcs : list Archive) (kss : list KeepSpec) :
  let after := fst (arc_names_to_delete arcs kss) in
  Permutation arcs after /\ sorted_desc after /\
  (forall t, List.filter (same_time t) after = List.filter (same_time t) arcs) /\
  (sorted_desc arcs -> after = arcs).
Proof.
  cbn zeta. change (fst (arc_names_to_delete arcs kss)) with (sort_desc arcs).
  split; [apply sort_desc_perm|].
  split; [apply sort_desc_sorted|].
  split; [intros t; apply sort_desc_stable|apply sort_desc_fixed].
Qed.

(** An older archive listed before a newer one: the call swaps them. *)
Lemma arc_names_to_delete_reorders_input :
  fst (arc_names_to_delete [arc "a" 1999 1 1; arc "b" 2000 1 1] []) <>
  [arc "a" 1999 1 1; arc "b" 2000 1 1].
Proof. vm_compute. discriminate. Qed.

(** C9: a second run, on the list as the first run left it and with the
    same keep specs, yields the same names in the same order, and leaves
    the list as it found it. *)
Theorem names_to_delete_second_run (arcs : list Archive) (kss : list KeepSpec) :
  let first := arc_names_to_delete arcs kss in
  let second := arc_names_to_delete (fst first) kss in
  snd second = snd first /\ fst second = fst first.
Proof.
  cbn zeta. unfold arc_names_to_delete. cbn [fst snd].
  now rewrite sort_desc_idem.
Qed.

(** * The regular expressions *)

Lemma ltb_length_tail (n : nat) : (n <? S n)%nat = true.
Proof. apply Nat.ltb_lt. lia. Qed.

Lemma rmatch_star_lazy p s c k :
  rmatch (Star false (Chr p)) s c k =
  orelse (k s c) (fun _ =>
    match s with
    | String a s' => if p a then rmatch (Star false (Chr p)) s' c k else None
    | "" => None
    end).
Proof.
  destruct s as [|a s'].
  - simpl. destruct (k "" c); reflexivity.
  - cbn [rmatch String.length].
    destruct (k (String a s') c); cbn [orelse]; [reflexivity|].
    destruct (p a); [|reflexivity].
    rewrite ltb_length_tail. reflexivity.
Qed.

Lemma rmatch_star_greedy p s c k :
  rmatch (Star true (Chr p)) s c k =
  match s with
  | String a s' =>
      if p a then orelse (rmatch (Star true (Chr p)) s' c k) (fun _ => k s c)
      else k s c
  | "" => k s c
  end.
Proof.
  destruct s as [|a s'].
  - reflexivity.
  - cbn [rmatch String.length].
    destruct (p a); [|reflexivity].
    rewrite ltb_length_tail. reflexivity.
Qed.

Lemma orelse_none (x : mres) : orelse x (fun _ => None) = x.
Proof. now destruct x. Qed.

Lemma rmatch_tail_run t c :
  rmatch (Star true (Chr is_name_tail_char)) t c at_end =
  if all_chars is_name_tail_char t then Some (c, "") else None.
Proof.
  induction t as [|a t IH]; rewrite rmatch_star_greedy; [reflexivity|].
  cbn [all_chars]. destruct (is_name_tail_char a); [|reflexivity].
  rewrite IH. cbn [andb]. unfold at_end. cbn [is_empty].
  apply orelse_none.
Qed.

Lemma rmatch_Alt r1 r2 s c k :
  rmatch (Alt r1 r2) s c k = orelse (rmatch r1 s c k) (fun _ => rmatch r2 s c k).
Proof. reflexivity. Qed.

Lemma rmatch_Seq_Chr p r s c k :
  rmatch (Seq (Chr p) r) s c k =
  match s with
  | String a s' => if p a then rmatch r s' c k else None
  | "" => None
  end.
Proof. reflexivity. Qed.

Lemma rmatch_name_suffix s c :
  rmatch name_suffix s c at_end =
  if is_empty s || is_suffix_run s then Some (c, "") else None.
Proof.
  unfold name_suffix, Opt. rewrite rmatch_Alt, rmatch_Seq_Chr.
  destruct s as [|a t]; [reflexivity|].
  cbn [is_empty is_suffix_run orb].
  destruct (Ascii.eqb "-" a); cbn [andb]; [|reflexivity].
  rewrite rmatch_tail_run.
  destruct (all_chars is_name_tail_char t); reflexivity.
Qed.

Lemma length_append p q :
  String.length (p +:+ q) = (String.length p + String.length q)%nat.
Proof.
  induction p as [|a p IH]; [reflexivity|].
  change (String a p +:+ q) with (String a (p +:+ q)).
  cbn [String.length]. now rewrite IH.
Qed.

Lemma consumed_prefix pre s : consumed (pre +:+ s) s = pre.
Proof.
  unfold consumed. rewrite length_append.
  replace (String.length pre + String.length s - String.length s)%nat
    with (String.length pre) by lia.
  induction pre as [|a pre IH].
  - destruct s; reflexivity.
  - change (String a pre +:+ s) with (String a (pre +:+ s)).
    cbn [String.length substring]. now rewrite IH.
Qed.

Lemma append_assoc_char pre a s : (pre +:+ String a "") +:+ s = pre +:+ String a s.
Proof.
  induction pre as [|b pre IH]; [reflexivity|].
  change ((String b pre +:+ String a "") +:+ s) with (String b ((pre +:+ String a "") +:+ s)).
  rewrite IH. reflexivity.
Qed.

Lemma append_empty_r s : s +:+ "" = s.
Proof.
  induction s as [|a s IH]; [reflexivity|].
  change (String a s +:+ "") with (String a (s +:+ "")). now rewrite IH.
Qed.

Lemma rmatch_lazy_name whole c : forall s pre,
  whole = pre +:+ s ->
  rmatch (Star false (Chr not_newline)) s c
    (fun s' c' => rmatch name_suffix s' ((1%nat, consumed whole s') :: c') at_end) =
  if all_chars not_newline (strip_run s)
  then Some ((1%nat, pre +:+ strip_run s) :: c, "") else None.
Proof.
  induction s as [|a s IH]; intros pre Hw; rewrite rmatch_star_lazy, rmatch_name_suffix.
  - subst whole. rewrite consumed_prefix. cbn [strip_run]. rewrite append_empty_r.
    reflexivity.
  - cbn [is_empty orb strip_run].
    destruct (is_suffix_run (String a s)) eqn:Erun; cbn [orelse].
    + subst whole. rewrite consumed_prefix, append_empty_r. reflexivity.
    + cbn [all_chars]. destruct (not_newline a); [|reflexivity].
      rewrite (IH (pre +:+ String a "")).
      * cbn [andb]. now rewrite append_assoc_char.
      * now rewrite append_assoc_char.
Qed.

Lemma fullmatch_NAME_RE name :
  fullmatch NAME_RE name =
  if all_chars not_newline (strip_run name) then Some [(1%nat, strip_run name)] else None.
Proof.
  unfold fullmatch, NAME_RE.
  change (rmatch _ name [] _) with
    (rmatch (Star false (Chr not_newline)) name []
       (fun s' c' => rmatch name_suffix s' ((1%nat, consumed name s') :: c') at_end)).
  rewrite (rmatch_lazy_name name [] name "" eq_refl).
  destruct (all_chars not_newline (strip_run name)); reflexivity.
Qed.

(** * Lines and fields *)

Lemma all_chars_weaken (p q : ascii -> bool) s :
  (forall a, p a = true -> q a = true) -> all_chars p s = true -> all_chars q s = true.
Proof.
  intros Hpq. induction s as [|a s IH]; cbn [all_chars]; [reflexivity|].
  intros H. apply andb_true_iff in H as [Ha Hs].
  apply andb_true_iff. auto.
Qed.

Lemma splitlines_no_linebreak_aux n : forall s,
  (String.length s <= n)%nat ->
  Forall (fun l => all_chars no_linebreak l = true) (splitlines s).
Proof.
  induction n as [|n IH]; intros s Hlen.
  - destruct s; [constructor|simpl in Hlen; lia].
  - destruct s as [|a s]; [constructor|].
    cbn [String.length] in Hlen. cbn [splitlines].
    destruct (is_linebreak a) eqn:Ea.
    + constructor; [reflexivity|].
      destruct s as [|b s]; [constructor|].
      cbn [String.length] in Hlen.
      destruct (Ascii.eqb a CR && Ascii.eqb b LF); apply IH; cbn [String.length]; lia.
    + assert (Forall (fun l => all_chars no_linebreak l = true) (splitlines s)) as Hs
        by (apply IH; lia).
      destruct (splitlines s) as [|x xs].
      * constructor; [|constructor]. cbn [all_chars]. unfold no_linebreak at 1.
        now rewrite Ea.
      * inversion Hs; subst. constructor; [|assumption].
        cbn [all_chars]. unfold no_linebreak at 1. rewrite Ea. assumption.
Qed.

Lemma splitlines_no_linebreak s :
  Forall (fun l => all_chars no_linebreak l = true) (splitlines s).
Proof. eapply splitlines_no_linebreak_aux. reflexivity. Qed.

Lemma no_linebreak_not_newline a : no_linebreak a = true -> not_newline a = true.
Proof.
  unfold no_linebreak, not_newline. intros H.
  destruct (Ascii.eqb_spec a LF) as [->|]; [discriminate H|reflexivity].
Qed.

Lemma rstrip_nl_id s : all_chars not_newline s = true -> rstrip_nl s = s.
Proof.
  induction s as [|a s IH]; cbn [all_chars rstrip_nl]; [reflexivity|].
  intros H. apply andb_true_iff in H as [Ha Hs].
  rewrite (IH Hs). unfold not_newline in Ha.
  destruct (Ascii.eqb a LF); [discriminate Ha|reflexivity].
Qed.

Lemma split_all_chars p sep s :
  all_chars p s = true -> Forall (fun f => all_chars p f = true) (split sep s).
Proof.
  induction s as [|a s IH]; cbn [all_chars split]; intros H.
  - repeat constructor.
  - apply andb_true_iff in H as [Ha Hs]. specialize (IH Hs).
    destruct (Ascii.eqb a sep).
    + constructor; [reflexivity|assumption].
    + destruct (split sep s) as [|x xs].
      * constructor; [|constructor]. cbn [all_chars]. now rewrite Ha.
      * inversion IH; subst. constructor; [|assumption].
        cbn [all_chars]. rewrite Ha. assumption.
Qed.

Lemma strip_run_all_chars p s : all_chars p s = true -> all_chars p (strip_run s) = true.
Proof.
  induction s as [|a s IH]; [reflexivity|].
  cbn [strip_run all_chars]. intros H. apply andb_true_iff in H as [Ha Hs].
  destruct (is_suffix_run (String a s)); [reflexivity|].
  cbn [all_chars]. rewrite Ha. auto.
Qed.

(** Every name without a newline matches, and group 1 is the stripped name. *)
Lemma base_name_strip_run n :
  all_chars not_newline n = true -> base_name n = Some (strip_run n).
Proof.
  intros H. unfold base_name. rewrite fullmatch_NAME_RE.
  rewrite (strip_run_all_chars _ _ H). reflexivity.
Qed.

Lemma strip_run_spec n : base_name_of n (strip_run n).
Proof.
  induction n as [|a n IH].
  - exists "". split; [reflexivity|]. split; [now left|].
    intros p q Hpq Hq. destruct p; [|discriminate Hpq].
    change ("" +:+ q) with q in Hpq. subst q. discriminate Hq.
  - cbn [strip_run]. destruct (is_suffix_run (String a n)) eqn:Erun.
    + exists (String a n). split; [reflexivity|]. split; [now right|].
      intros p q Hpq _. rewrite Hpq, length_append. lia.
    + destruct IH as [suffix [Hn [Hs Hmax]]].
      exists suffix. split.
      * change (String a (strip_run n) +:+ suffix) with (String a (strip_run n +:+ suffix)).
        now rewrite <- Hn.
      * split; [assumption|].
        intros p q Hpq Hq. destruct p as [|b p].
        -- change ("" +:+ q) with q in Hpq. subst q. congruence.
        -- change (String b p +:+ q) with (String b (p +:+ q)) in Hpq.
           injection Hpq as _ Hn'. eauto.
Qed.

Lemma base_name_of_unique n b1 b2 : base_name_of n b1 -> base_name_of n b2 -> b1 = b2.
Proof.
  intros [s1 [H1 [R1 M1]]] [s2 [H2 [R2 M2]]].
  assert (String.length s1 = String.length s2) as Hlen.
  { assert (String.length s1 <= String.length s2)%nat.
    { destruct R1 as [->|R1]; [simpl; lia|]. eapply M2; eauto. }
    assert (String.length s2 <= String.length s1)%nat.
    { destruct R2 as [->|R2]; [simpl; lia|]. eapply M1; eauto. }
    lia. }
  assert (String.length b1 = String.length b2) as Hb.
  { pose proof (f_equal String.length H1) as L1.
    pose proof (f_equal String.length H2) as L2.
    rewrite length_append in L1, L2. lia. }
  clear - H1 H2 Hb. subst n. revert b2 H2 Hb.
  induction b1 as [|a b1 IH]; intros [|c b2] H Hb; try discriminate Hb; [reflexivity|].
  change (String a b1 +:+ s1) with (String a (b1 +:+ s1)) in H.
  change (String c b2 +:+ s2) with (String c (b2 +:+ s2)) in H.
  injection H as Hac Hrest. subst c. f_equal. apply IH; [assumption|].
  cbn [String.length] in Hb. lia.
Qed.

(** * parse_arcs *)

Lemma parse_arcs_step line lines d :
  all_chars not_newline line = true ->
  parse_arcs_loop (line :: lines) d =
  match parse_line line with
  | Ok a =>
      match base_name (name a) with
      | Some base => parse_arcs_loop lines (dd_append d base a)
      | None => Raise (failed_to_parse_line line)
      end
  | Raise e => Raise e
  end.
Proof.
  intros Hline. cbn [parse_arcs_loop]. unfold parse_line, base_name.
  rewrite (rstrip_nl_id _ Hline).
  destruct (split TAB line) as [|n [|ts [|x fields]]]; try reflexivity.
  destruct (strptime ts); [|reflexivity].
  cbn [name]. destruct (fullmatch NAME_RE n); reflexivity.
Qed.

Lemma parse_line_name_no_newline line a :
  all_chars not_newline line = true -> parse_line line = Ok a ->
  all_chars not_newline (name a) = true.
Proof.
  intros Hline. unfold parse_line.
  pose proof (split_all_chars not_newline TAB line Hline) as Hf.
  destruct (split TAB line) as [|n [|ts [|x fields]]]; try discriminate.
  destruct (strptime ts); [|discriminate].
  intros [= <-]. cbn [name]. now inversion Hf.
Qed.

Lemma parse_arcs_loop_lines lines : forall d,
  Forall (fun l => all_chars not_newline l = true) lines ->
  parse_arcs_loop lines d =
  match parse_lines lines with
  | Ok arcs => Ok (fold_left file_archive arcs d)
  | Raise e => Raise e
  end.
Proof.
  induction lines as [|line lines IH]; intros d Hall; [reflexivity|].
  inversion Hall as [|? ? Hline Hrest]; subst.
  rewrite (parse_arcs_step _ _ _ Hline). cbn [parse_lines].
  destruct (parse_line line) as [a|e] eqn:Ea; [|reflexivity].
  rewrite (base_name_strip_run _ (parse_line_name_no_newline _ _ Hline Ea)).
  rewrite (IH _ Hrest).
  destruct (parse_lines lines); reflexivity.
Qed.

Lemma lines_not_newline listing :
  Forall (fun l => all_chars not_newline l = true) (splitlines listing).
Proof.
  eapply List.Forall_impl; [|apply splitlines_no_linebreak].
  intros l. apply all_chars_weaken. exact no_linebreak_not_newline.
Qed.

Lemma parse_arcs_lines listing :
  parse_arcs listing =
  match parse_lines (splitlines listing) with
  | Ok arcs => Ok (fold_left file_archive arcs [])
  | Raise e => Raise e
  end.
Proof. apply parse_arcs_loop_lines, lines_not_newline. Qed.

Lemma parse_line_ok_iff line : (exists a, parse_line line = Ok a) <-> line_ok line.
Proof.
  unfold parse_line, line_ok. split.
  - intros [a H].
    destruct (split TAB line) as [|n [|ts [|x fields]]]; try discriminate.
    destruct (strptime ts) as [t|] eqn:Et; [|discriminate]. eauto.
  - intros [n [ts [t [Hs Ht]]]]. rewrite Hs, Ht. eauto.
Qed.

Lemma parse_line_error line e :
  parse_line line = Raise e ->
  (exists n, e = ValueError_unpack n /\ List.length (split TAB line) = n /\ n <> 2%nat) \/
  (exists nm ts, e = ValueError_strptime ts /\ split TAB line = [nm; ts] /\ strptime ts = None).
Proof.
  unfold parse_line.
  destruct (split TAB line) as [|n [|ts [|x fields]]] eqn:Es;
    try (intros [= <-]; left; eexists; repeat split; simpl; lia).
  destruct (strptime ts) eqn:Et; [discriminate|].
  intros [= <-]. right. eauto.
Qed.

Lemma parse_lines_ok_iff lines :
  (exists arcs, parse_lines lines = Ok arcs) <-> Forall line_ok lines.
Proof.
  induction lines as [|line lines IH]; cbn [parse_lines].
  - split; [constructor|eauto].
  - split.
    + intros [arcs H]. destruct (parse_line line) as [a|e] eqn:Ea; [|discriminate].
      destruct (parse_lines lines) as [arcs'|e] eqn:El; [|discriminate].
      constructor; [apply parse_line_ok_iff; eauto|apply IH; eauto].
    + intros H. inversion H as [|? ? Hl Hls]; subst.
      apply parse_line_ok_iff in Hl as [a ->]. apply IH in Hls as [arcs ->]. eauto.
Qed.

Lemma parse_lines_first_error pre : forall line post,
  Forall line_ok pre -> ~ line_ok line ->
  exists e, parse_line line = Raise e /\ parse_lines (pre ++ line :: post)%list = Raise e.
Proof.
  induction pre as [|l pre IH]; intros line post Hpre Hbad; cbn [app parse_lines].
  - destruct (parse_line line) as [a|e] eqn:Ea.
    + exfalso. apply Hbad, parse_line_ok_iff. eauto.
    + eauto.
  - inversion Hpre as [|? ? Hl Hls]; subst.
    apply parse_line_ok_iff in Hl as [a ->].
    destruct (IH line post Hls Hbad) as [e [He ->]]. eauto.
Qed.

Lemma parse_lines_archives lines : forall arcs,
  parse_lines lines = Ok arcs ->
  Forall2 (fun line a => exists ts_str,
             split TAB line = [name a; ts_str] /\ strptime ts_str = Some (timestamp a))
          lines arcs.
Proof.
  induction lines as [|line lines IH]; cbn [parse_lines]; intros arcs H.
  - injection H as <-. constructor.
  - destruct (parse_line line) as [a|e] eqn:Ea; [|discriminate].
    destruct (parse_lines lines) as [arcs'|e] eqn:El; [|discriminate].
    injection H as <-. constructor; [|auto].
    unfold parse_line in Ea.
    destruct (split TAB line) as [|n [|ts [|x fields]]]; try discriminate.
    destruct (strptime ts) as [t|] eqn:Et; [|discriminate].
    injection Ea as <-. cbn [name timestamp]. eauto.
Qed.

Lemma parse_lines_names lines : forall arcs,
  Forall (fun l => all_chars not_newline l = true) lines ->
  parse_lines lines = Ok arcs ->
  Forall (fun a => all_chars not_newline (name a) = true) arcs.
Proof.
  induction lines as [|line lines IH]; cbn [parse_lines]; intros arcs Hall H.
  - injection H as <-. constructor.
  - inversion Hall as [|? ? Hline Hrest]; subst.
    destruct (parse_line line) as [a|e] eqn:Ea; [|discriminate].
    destruct (parse_lines lines) as [arcs'|e] eqn:El; [|discriminate].
    injection H as <-. constructor; [|auto].
    eapply parse_line_name_no_newline; eauto.
Qed.

(** * The family mapping *)

Lemma dict_get_In_keys {V} (d : list (string * V)) b :
  dict_get d b <> None -> In b (dict_keys d).
Proof.
  induction d as [|[k v] d IH]; cbn [dict_get dict_keys map fst]; [congruence|].
  destruct (String.eqb_spec k b) as [->|Hne]; [now left|].
  intros H. right. now apply IH.
Qed.

Lemma dict_get_dd_append d base a b :
  dict_get (dd_append d base a) b =
  if String.eqb base b then Some (family d base ++ [a])%list else dict_get d b.
Proof.
  unfold family.
  induction d as [|[k v] d IH]; cbn [dd_append dict_get].
  - destruct (String.eqb base b); reflexivity.
  - destruct (String.eqb_spec k base) as [->|Hk]; cbn [dict_get].
    + destruct (String.eqb_spec base b) as [->|Hb]; [reflexivity|].
      reflexivity.
    + destruct (String.eqb_spec k b) as [->|Hkb].
      * destruct (String.eqb_spec base b) as [->|Hb]; [congruence|reflexivity].
      * exact IH.
Qed.

Lemma dd_append_keys d base a :
  dict_keys (dd_append d base a) =
  if existsb (String.eqb base) (dict_keys d) then dict_keys d
  else (dict_keys d ++ [base])%list.
Proof.
  induction d as [|[k v] d IH]; cbn [dd_append dict_keys map fst existsb]; [reflexivity|].
  rewrite (String.eqb_sym base k).
  destruct (String.eqb k base); cbn [orb dict_keys map fst]; [reflexivity|].
  fold (dict_keys (dd_append d base a)). fold (dict_keys d). rewrite IH.
  destruct (existsb (String.eqb base) (dict_keys d)); reflexivity.
Qed.

Lemma dd_append_keys_ok d base a : keys_ok d -> keys_ok (dd_append d base a).
Proof.
  intros [Hnd Hne]. split.
  - rewrite dd_append_keys.
    destruct (existsb (String.eqb base) (dict_keys d)) eqn:E; [assumption|].
    apply List.NoDup_app; [assumption|repeat constructor; intros []|].
    intros x Hx [->|[]].
    assert (existsb (String.eqb x) (dict_keys d) = true); [|congruence].
    apply existsb_exists. exists x. split; [assumption|apply String.eqb_refl].
  - intros b. rewrite dict_get_dd_append.
    destruct (String.eqb base b); [|apply Hne].
    intros [= H]. destruct (family d base); discriminate H.
Qed.

Lemma family_dd_append d base a b :
  family (dd_append d base a) b =
  (family d b ++ if String.eqb base b then [a] else [])%list.
Proof.
  unfold family at 1. rewrite dict_get_dd_append.
  destruct (String.eqb_spec base b) as [->|]; [reflexivity|].
  fold (family d b). now rewrite app_nil_r.
Qed.

Lemma family_fold (key : Archive -> string) arcs : forall d b,
  family (fold_left (fun d a => dd_append d (key a) a) arcs d) b =
  (family d b ++ List.filter (fun a => String.eqb (key a) b) arcs)%list.
Proof.
  induction arcs as [|a arcs IH]; intros d b; cbn [fold_left List.filter].
  - now rewrite app_nil_r.
  - rewrite IH, family_dd_append.
    destruct (String.eqb (key a) b); [|now rewrite app_nil_r].
    now rewrite <- app_assoc.
Qed.

Lemma keys_ok_fold (key : Archive -> string) arcs : forall d,
  keys_ok d -> keys_ok (fold_left (fun d a => dd_append d (key a) a) arcs d).
Proof.
  induction arcs as [|a arcs IH]; intros d Hd; cbn [fold_left]; [assumption|].
  apply IH, dd_append_keys_ok, Hd.
Qed.

Lemma dict_get_nonempty_family d b : keys_ok d -> dict_get d b = nonempty (family d b).
Proof.
  intros [_ Hne]. unfold family. specialize (Hne b).
  destruct (dict_get d b) as [[|x l]|]; [congruence|reflexivity|reflexivity].
Qed.

Lemma keys_ok_empty : keys_ok [].
Proof. split; [constructor|intros b; discriminate]. Qed.

Lemma filter_ext_in_list {A} (f g : A -> bool) l :
  (forall a, In a l -> f a = g a) -> List.filter f l = List.filter g l.
Proof.
  induction l as [|a l IH]; intros H; cbn [List.filter]; [reflexivity|].
  rewrite (H a) by now left. rewrite IH; [reflexivity|].
  intros x Hx. apply H. now right.
Qed.

(** * Claims about the listing parser *)

Lemma name_tail_char_not_newline a : is_name_tail_char a = true -> not_newline a = true.
Proof.
  unfold not_newline. destruct (Ascii.eqb_spec a LF) as [->|]; [|reflexivity].
  vm_compute. congruence.
Qed.

Lemma strip_run_newline_free n :
  all_chars not_newline (strip_run n) = all_chars not_newline n.
Proof.
  induction n as [|a n IH]; [reflexivity|].
  cbn [strip_run]. destruct (is_suffix_run (String a n)) eqn:Erun.
  - symmetry. cbn [is_suffix_run] in Erun.
    apply andb_true_iff in Erun as [Ha Hn].
    cbn [all_chars]. apply andb_true_iff. split.
    + apply Ascii.eqb_eq in Ha. subst a. reflexivity.
    + eapply all_chars_weaken; [exact name_tail_char_not_newline|exact Hn].
  - cbn [all_chars]. now rewrite IH.
Qed.

Lemma parse_arcs_never_runtime_error listing msg :
  parse_arcs listing <> Raise (RuntimeError msg).
Proof.
  rewrite parse_arcs_lines.
  destruct (parse_lines (splitlines listing)) as [arcs|e] eqn:E; [discriminate|].
  intros [= ->].
  assert (forall lines, parse_lines lines <> Raise (RuntimeError msg)) as Hno.
  { induction lines as [|l lines IH]; cbn [parse_lines]; [discriminate|].
    destruct (parse_line l) as [a|e] eqn:El.
    - destruct (parse_lines lines); [discriminate|]. intros [= ->]. now apply IH.
    - intros [= ->]. apply parse_line_error in El as [[n [? _]]|[nm [ts [? _]]]]; discriminate. }
  exact (Hno _ E).
Qed.

(** C10, as the code has it: [NAME_RE] full-matches exactly the strings
    without a newline, which [.] does not match.  The names [parse_arcs]
    matches come from the lines of [splitlines] and have none, so
    [parse_arcs] never raises its "failed to parse line" error, nor any
    other [RuntimeError]. *)
Theorem name_re_matches_newline_free :
  (forall n, (exists m, fullmatch NAME_RE n = Some m) <-> all_chars not_newline n = true) /\
  (forall listing msg, parse_arcs listing <> Raise (RuntimeError msg)) /\
  (forall listing line, parse_arcs listing <> Raise (failed_to_parse_line line)).
Proof.
  split; [|split].
  - intros n. rewrite fullmatch_NAME_RE, strip_run_newline_free.
    destruct (all_chars not_newline n); split; eauto; try discriminate.
    intros [m H]. discriminate H.
  - intros listing msg. apply parse_arcs_never_runtime_error.
  - intros listing line. apply parse_arcs_never_runtime_error.
Qed.

(** The one-character string made of a newline is not matched. *)
Lemma name_re_rejects_newline : fullmatch NAME_RE (String LF "") = None.
Proof. reflexivity. Qed.

(** C4, as the code has it: [parse_arcs] returns a mapping exactly when
    every line has two tab-separated fields of which the second parses as
    a timestamp.  Otherwise it raises, returning no mapping, the
    [ValueError] of the first malformed line: the one of the unpacking,
    which tells the number of fields, or the one of [strptime], for the
    timestamp field.  It is never the error that quotes the line.  The
    empty listing gives the empty mapping. *)
Theorem parse_arcs_outcome (listing : string) :
  ((exists d, parse_arcs listing = Ok d) <-> Forall line_ok (splitlines listing)) /\
  (forall pre line post,
     splitlines listing = (pre ++ line :: post)%list ->
     Forall line_ok pre -> ~ line_ok line ->
     exists e, parse_arcs listing = Raise e /\
       ((exists n, e = ValueError_unpack n /\
                   List.length (split TAB line) = n /\ n <> 2%nat) \/
        (exists nm ts, e = ValueError_strptime ts /\
                       split TAB line = [nm; ts] /\ strptime ts = None))) /\
  (forall line, parse_arcs listing <> Raise (InvalidListingLine line)) /\
  parse_arcs "" = Ok [].
Proof.
  split; [|split; [|split]].
  - rewrite parse_arcs_lines, <- parse_lines_ok_iff. split.
    + intros [d H]. destruct (parse_lines (splitlines listing)); [eauto|discriminate].
    + intros [arcs ->]. eauto.
  - intros pre line post Hlines Hpre Hbad.
    rewrite parse_arcs_lines, Hlines.
    destruct (parse_lines_first_error pre line post Hpre Hbad) as [e [He ->]].
    exists e. split; [reflexivity|]. now apply parse_line_error.
  - intros line. apply parse_arcs_never_runtime_error.
  - reflexivity.
Qed.

(** A listing whose only line has one field: the error is the one of the
    unpacking, and it does not quote the line. *)
Lemma parse_arcs_error_without_line :
  splitlines "foo" = ["foo"] /\ ~ line_ok "foo" /\
  parse_arcs "foo" = Raise (ValueError_unpack 1) /\
  parse_arcs "foo" <> Raise (InvalidListingLine "foo").
Proof.
  split; [reflexivity|]. split; [|split; [reflexivity|discriminate]].
  intros [n [ts [t [H _]]]]. discriminate H.
Qed.

Lemma in_family_base_name base a :
  in_family base a = true <-> base_name (name a) = Some base.
Proof.
  unfold in_family. destruct (base_name (name a)) as [b|]; [|split; discriminate].
  rewrite String.eqb_eq. split; congruence.
Qed.

(** C6: for the archives of a listing that parses, in the order of its
    lines: the base name of each is its name without the longest trailing
    run of a dash followed by digits and dashes (the name itself when
    there is no such run); each base name is filed once, and its family is
    the list of the archives with that base name, in input order.  So two
    archives are in one family exactly when their base names are equal. *)
Theorem parse_arcs_families (listing : string) (d : list (string * list Archive)) :
  parse_arcs listing = Ok d ->
  exists arcs,
    Forall2 (fun line a => exists ts_str,
               split TAB line = [name a; ts_str] /\
               strptime ts_str = Some (timestamp a))
            (splitlines listing) arcs /\
    (forall a, In a arcs ->
       exists base, base_name (name a) = Some base /\ base_name_of (name a) base) /\
    List.NoDup (dict_keys d) /\
    (forall base, dict_get d base = nonempty (List.filter (in_family base) arcs)) /\
    (forall a1 a2, In a1 arcs -> In a2 arcs ->
       (exists base l, dict_get d base = Some l /\ In a1 l /\ In a2 l) <->
       base_name (name a1) = base_name (name a2)).
Proof.
  rewrite parse_arcs_lines.
  destruct (parse_lines (splitlines listing)) as [arcs|e] eqn:E; [|discriminate].
  intros [= <-]. exists arcs.
  pose proof (parse_lines_names _ _ (lines_not_newline listing) E) as Hnames.
  rewrite List.Forall_forall in Hnames.
  assert (forall a, In a arcs -> base_name (name a) = Some (strip_run (name a))) as Hbase
    by (intros a Ha; apply base_name_strip_run, Hnames, Ha).
  pose proof (keys_ok_fold (fun a => strip_run (name a)) arcs [] keys_ok_empty) as Hok.
  assert (forall base,
            dict_get (fold_left file_archive arcs []) base =
            nonempty (List.filter (in_family base) arcs)) as Hget.
  { intros base. unfold file_archive.
    rewrite (dict_get_nonempty_family _ _ Hok), family_fold. cbn [family dict_get app].
    f_equal. apply filter_ext_in_list. intros a Ha.
    unfold in_family. now rewrite (Hbase a Ha). }
  split; [now apply parse_lines_archives|].
  split; [intros a Ha; exists (strip_run (name a)); split; [auto|apply strip_run_spec]|].
  split; [exact (proj1 Hok)|].
  split; [exact Hget|].
  intros a1 a2 H1 H2. split.
  - intros [base [l [Hl [Hin1 Hin2]]]]. rewrite Hget in Hl.
    assert (l = List.filter (in_family base) arcs) as ->.
    { destruct (List.filter (in_family base) arcs); [discriminate|].
      now injection Hl as <-. }
    apply filter_In in Hin1 as [_ F1]. apply filter_In in Hin2 as [_ F2].
    apply in_family_base_name in F1, F2. congruence.
  - intros Heq. exists (strip_run (name a1)), (List.filter (in_family (strip_run (name a1))) arcs).
    assert (In a1 (List.filter (in_family (strip_run (name a1))) arcs)) as F1.
    { apply filter_In. split; [assumption|]. apply in_family_base_name. auto. }
    assert (In a2 (List.filter (in_family (strip_run (name a1))) arcs)) as F2.
    { apply filter_In. split; [assumption|]. apply in_family_base_name.
      rewrite <- Heq. auto. }
    split; [|auto]. rewrite Hget.
    destruct (List.filter (in_family (strip_run (name a1))) arcs); [destruct F1|reflexivity].
Qed.

Lemma parse_arcs_families_witness :
  exists arcs,
    Forall2 (fun line a => exists ts_str,
               split TAB line = [name a; ts_str] /\
               strptime ts_str = Some (timestamp a))
            (splitlines listing_r2) arcs /\
    (forall a, In a arcs ->
       exists base, base_name (name a) = Some base /\ base_name_of (name a) base) /\
    List.NoDup (dict_keys
      [("foo", [mkArchive "foo" (mkdt 2000 1 1 0 0 0 0);
                mkArchive "foo-123" (mkdt 1999 2 2 3 0 0 0)]);
       ("bar", [mkArchive "bar-123" (mkdt 1999 2 2 3 0 0 0)])]) /\
    (forall base, dict_get
      [("foo", [mkArchive "foo" (mkdt 2000 1 1 0 0 0 0);
                mkArchive "foo-123" (mkdt 1999 2 2 3 0 0 0)]);
       ("bar", [mkArchive "bar-123" (mkdt 1999 2 2 3 0 0 0)])] base =
       nonempty (List.filter (in_family base) arcs)) /\
    (forall a1 a2, In a1 arcs -> In a2 arcs ->
       (exists base l, dict_get
          [("foo", [mkArchive "foo" (mkdt 2000 1 1 0 0 0 0);
                    mkArchive "foo-123" (mkdt 1999 2 2 3 0 0 0)]);
           ("bar", [mkArchive "bar-123" (mkdt 1999 2 2 3 0 0 0)])] base = Some l /\
          In a1 l /\ In a2 l) <->
       base_name (name a1) = base_name (name a2)).
Proof.
  apply (parse_arcs_families listing_r2). vm_compute. reflexivity.
Defined.

(** * The keep-spec pattern *)

Lemma rmatch_Lit w : forall s c k,
  rmatch (Lit w) s c k =
  match strip_prefix w s with Some s' => k s' c | None => None end.
Proof.
  induction w as [|a w IH]; intros s c k; [reflexivity|].
  cbn [Lit rmatch strip_prefix]. destruct s as [|b s]; [reflexivity|].
  destruct (Ascii.eqb a b); [apply IH|reflexivity].
Qed.

Lemma strip_prefix_app w : forall s s', strip_prefix w s = Some s' -> s = w +:+ s'.
Proof.
  induction w as [|a w IH]; intros s s'; cbn [strip_prefix].
  - now intros [= ->].
  - destruct s as [|b s]; [discriminate|].
    destruct (Ascii.eqb_spec a b) as [->|]; [|discriminate].
    intros H. apply IH in H. subst s. reflexivity.
Qed.

Lemma strip_prefix_refl w : strip_prefix w w = Some "".
Proof.
  induction w as [|a w IH]; [reflexivity|].
  cbn [strip_prefix]. now rewrite Ascii.eqb_refl.
Qed.

Lemma consumed_all s : consumed s "" = s.
Proof.
  pose proof (consumed_prefix s "") as H. now rewrite append_empty_r in H.
Qed.

Lemma rmatch_Lit_end w s c :
  rmatch (Lit w) s c (group2_end s c) =
  if String.eqb w s then Some ((2%nat, s) :: c, "") else None.
Proof.
  rewrite rmatch_Lit. unfold group2_end, at_end.
  destruct (strip_prefix w s) as [s'|] eqn:E.
  - apply strip_prefix_app in E. subst s.
    destruct s' as [|b s']; cbn [is_empty].
    + rewrite append_empty_r, String.eqb_refl, consumed_all. reflexivity.
    + destruct (String.eqb_spec w (w +:+ String b s')) as [Heq|]; [|reflexivity].
      apply (f_equal String.length) in Heq. rewrite length_append in Heq.
      cbn [String.length] in Heq. lia.
  - destruct (String.eqb_spec w s) as [->|]; [|reflexivity].
    rewrite strip_prefix_refl in E. discriminate.
Qed.

Lemma rmatch_alts_end w ws s c :
  rmatch (alts (w :: ws)) s c (group2_end s c) =
  if existsb (fun w => String.eqb w s) (w :: ws) then Some ((2%nat, s) :: c, "") else None.
Proof.
  revert w. induction ws as [|w2 ws IH]; intros w.
  - cbn [alts existsb]. rewrite rmatch_Lit_end, orb_false_r. reflexivity.
  - change (alts (w :: w2 :: ws)) with (Alt (Lit w) (alts (w2 :: ws))).
    cbn [rmatch]. rewrite rmatch_Lit_end.
    change (existsb (fun w => String.eqb w s) (w :: w2 :: ws))
      with (String.eqb w s || existsb (fun w => String.eqb w s) (w2 :: ws)).
    destruct (String.eqb w s); cbn [orelse orb]; [reflexivity|].
    apply IH.
Qed.

Lemma rmatch_digits s c k :
  (forall a s' c', is_digit a = true -> k (String a s') c' = None) ->
  rmatch (Star true (Chr is_digit)) s c k = k (drop_digits s) c.
Proof.
  intros Hk. induction s as [|a s IH]; rewrite rmatch_star_greedy; [reflexivity|].
  cbn [drop_digits]. destruct (is_digit a) eqn:Ea; [|reflexivity].
  rewrite IH, (Hk a s c Ea). apply orelse_none.
Qed.

Lemma digit_not_tag a s : is_digit a = true -> is_tag (String a s) = false.
Proof.
  intros Ha.
  destruct a as [[] [] [] [] [] [] [] []];
    try (vm_compute in Ha; discriminate Ha); reflexivity.
Qed.

Lemma take_drop_digits s : take_digits s +:+ drop_digits s = s.
Proof.
  induction s as [|a s IH]; [reflexivity|].
  cbn [take_digits drop_digits]. destruct (is_digit a); [|reflexivity].
  change (String a (take_digits s) +:+ drop_digits s)
    with (String a (take_digits s +:+ drop_digits s)).
  now rewrite IH.
Qed.

Lemma fullmatch_KEEP_SPEC_PATTERN tok :
  fullmatch KEEP_SPEC_PATTERN tok =
  if token_ok tok
  then Some [(2%nat, drop_digits tok); (1%nat, take_digits tok)] else None.
Proof.
  unfold fullmatch, KEEP_SPEC_PATTERN, Plus, token_ok.
  set (k1 := fun (s' : string) (c' : caps) =>
               rmatch (alts (dict_keys TIME_PATTERNS)) s'
                 ((1%nat, consumed tok s') :: c')
                 (group2_end s' ((1%nat, consumed tok s') :: c'))).
  assert (forall s' c', k1 s' c' =
            if is_tag s' then Some ((2%nat, s') :: (1%nat, consumed tok s') :: c', "")
            else None) as Hk1.
  { intros s' c'. unfold k1. apply rmatch_alts_end. }
  change (rmatch _ tok [] at_end) with
    (match tok with
     | String a t =>
         if is_digit a then rmatch (Star true (Chr is_digit)) t [] k1 else None
     | "" => None
     end).
  destruct tok as [|a t]; [reflexivity|].
  cbn [take_digits drop_digits]. destruct (is_digit a) eqn:Ea; [|reflexivity].
  cbn [is_empty negb andb].
  rewrite rmatch_digits.
  - rewrite Hk1. destruct (is_tag (drop_digits t)); [|reflexivity].
    pose proof (take_drop_digits (String a t)) as Htd.
    cbn [take_digits drop_digits] in Htd. rewrite Ea in Htd.
    rewrite <- Htd at 1. rewrite consumed_prefix. reflexivity.
  - intros b s' c' Hb. rewrite Hk1, (digit_not_tag b s' Hb). reflexivity.
Qed.

(** * parse_keep_specs *)

Lemma take_digits_all s : all_chars is_digit (take_digits s) = true.
Proof.
  induction s as [|a s IH]; [reflexivity|].
  cbn [take_digits]. destruct (is_digit a) eqn:Ea; [|reflexivity].
  cbn [all_chars]. now rewrite Ea.
Qed.

Lemma is_tag_In s : is_tag s = true <-> In s (dict_keys TIME_PATTERNS).
Proof.
  unfold is_tag. rewrite existsb_exists. split.
  - intros [w [Hw He]]. apply String.eqb_eq in He. now subst.
  - intros H. exists s. split; [assumption|apply String.eqb_refl].
Qed.

Lemma tag_no_digits tag :
  is_tag tag = true -> take_digits tag = "" /\ drop_digits tag = tag.
Proof.
  destruct tag as [|b t]; [now split|].
  intros Ht. cbn [take_digits drop_digits].
  destruct (is_digit b) eqn:Eb; [|now split].
  rewrite (digit_not_tag b t Eb) in Ht. discriminate.
Qed.

Lemma digits_then_tag ds tag :
  all_chars is_digit ds = true -> is_tag tag = true ->
  take_digits (ds +:+ tag) = ds /\ drop_digits (ds +:+ tag) = tag.
Proof.
  intros Hds Htag. induction ds as [|a ds IH].
  - change ("" +:+ tag) with tag. now apply tag_no_digits.
  - cbn [all_chars] in Hds. apply andb_true_iff in Hds as [Ha Hds].
    change (String a ds +:+ tag) with (String a (ds +:+ tag)).
    cbn [take_digits drop_digits]. rewrite Ha.
    destruct (IH Hds) as [-> ->]. now split.
Qed.

Lemma token_ok_iff tok : token_ok tok = true <-> keep_spec_token tok.
Proof.
  unfold token_ok, keep_spec_token. split.
  - intros H. apply andb_true_iff in H as [Hd Ht].
    exists (take_digits tok), (drop_digits tok).
    split; [now rewrite take_drop_digits|].
    split; [intros E; rewrite E in Hd; discriminate|].
    split; [apply take_digits_all|now apply is_tag_In].
  - intros [ds [tag [-> [Hne [Hds Htag]]]]]. apply is_tag_In in Htag.
    destruct (digits_then_tag ds tag Hds Htag) as [-> ->].
    rewrite Htag. destruct ds; [congruence|reflexivity].
Qed.

Lemma token_ok_false tok : token_ok tok = false <-> ~ keep_spec_token tok.
Proof.
  rewrite <- token_ok_iff. destruct (token_ok tok); split; congruence.
Qed.

Lemma dict_get_key {V} (d : list (string * V)) s :
  existsb (fun w => String.eqb w s) (dict_keys d) = true ->
  exists v, dict_get d s = Some v.
Proof.
  induction d as [|[k v] d IH]; cbn [dict_keys map fst existsb dict_get]; [discriminate|].
  destruct (String.eqb k s); [eauto|exact IH].
Qed.

Lemma int_value_nonneg s : 0 <= int_value s.
Proof.
  unfold int_value.
  assert (forall l acc, 0 <= acc ->
            0 <= fold_left (fun acc a => if is_digit a then 10 * acc + digit_val a else acc)
                   l acc) as Hfold.
  { induction l as [|a l IH]; intros acc0 H0; cbn [fold_left]; [assumption|].
    apply IH. destruct (is_digit a) eqn:Ea; [|assumption].
    unfold is_digit in Ea. unfold digit_val.
    apply andb_true_iff in Ea as [Hlo _]. apply N.leb_le in Hlo. lia. }
  apply Hfold. lia.
Qed.

(** [int] on a run of digits within the limit, and beyond it. *)
Lemma py_int_within s :
  (String.length s <= int_max_str_digits)%nat -> py_int s = Ok (int_value s).
Proof.
  intros H. unfold py_int. cbn zeta.
  destruct (Nat.ltb_spec int_max_str_digits (String.length s)); [lia|reflexivity].
Qed.

Lemma py_int_beyond s :
  (int_max_str_digits < String.length s)%nat ->
  py_int s = Raise (ValueError_int_digits (String.length s)).
Proof.
  intros H. unfold py_int. cbn zeta.
  destruct (Nat.ltb_spec int_max_str_digits (String.length s)); [reflexivity|lia].
Qed.

Lemma py_int_ok s n : py_int s = Ok n -> n = int_value s /\ 0 <= n.
Proof.
  unfold py_int. cbn zeta.
  destruct (int_max_str_digits <? String.length s)%nat; [discriminate|].
  intros [= <-]. split; [reflexivity|apply int_value_nonneg].
Qed.

Lemma token_accepted_iff tok : token_accepted_b tok = true <-> token_accepted tok.
Proof.
  unfold token_accepted_b, token_accepted.
  rewrite andb_true_iff, token_ok_iff, Nat.leb_le. reflexivity.
Qed.

Lemma token_accepted_false tok : token_accepted_b tok = false <-> ~ token_accepted tok.
Proof.
  rewrite <- token_accepted_iff. destruct (token_accepted_b tok); split; congruence.
Qed.

Lemma parse_keep_specs_match tok tokens result :
  token_ok tok = true ->
  exists pat,
    dict_get TIME_PATTERNS (drop_digits tok) = Some pat /\
    parse_keep_specs_loop (tok :: tokens) result =
      match py_int (take_digits tok) with
      | Ok n => parse_keep_specs_loop tokens (result ++ [mkKeepSpec pat n])%list
      | Raise e => Raise e
      end.
Proof.
  intros Hok. cbn [parse_keep_specs_loop].
  rewrite fullmatch_KEEP_SPEC_PATTERN, Hok.
  change (group [(2%nat, drop_digits tok); (1%nat, take_digits tok)] 2)
    with (drop_digits tok).
  change (group [(2%nat, drop_digits tok); (1%nat, take_digits tok)] 1)
    with (take_digits tok).
  unfold token_ok in Hok. apply andb_true_iff in Hok as [Hd Ht].
  destruct (dict_get_key TIME_PATTERNS _ Ht) as [pat Hpat]. rewrite Hpat.
  exists pat. split; reflexivity.
Qed.

Lemma parse_keep_specs_step tok tokens result :
  token_accepted_b tok = true ->
  exists k, token_spec tok k /\ parse_keep_specs_loop (tok :: tokens) result =
    parse_keep_specs_loop tokens (result ++ [k])%list.
Proof.
  intros Hacc. apply andb_true_iff in Hacc as [Hok Hfit]. apply Nat.leb_le in Hfit.
  destruct (parse_keep_specs_match tok tokens result Hok) as [pat [Hpat ->]].
  rewrite (py_int_within _ Hfit).
  exists (mkKeepSpec pat (int_value (take_digits tok))). split; [|reflexivity].
  exists (take_digits tok), (drop_digits tok). cbn [timepattern num].
  unfold token_ok in Hok. apply andb_true_iff in Hok as [Hd Ht].
  split; [now rewrite take_drop_digits|].
  split; [intros E; rewrite E in Hd; discriminate|].
  split; [apply take_digits_all|].
  split; [assumption|]. split; [now apply py_int_within|apply int_value_nonneg].
Qed.

Lemma parse_keep_specs_bad_step tok tokens result :
  token_ok tok = false ->
  parse_keep_specs_loop (tok :: tokens) result = Raise (invalid_keep_spec tok).
Proof.
  intros Hbad. cbn [parse_keep_specs_loop].
  now rewrite fullmatch_KEEP_SPEC_PATTERN, Hbad.
Qed.

Lemma parse_keep_specs_long_step tok tokens result :
  token_ok tok = true ->
  (int_max_str_digits < String.length (take_digits tok))%nat ->
  parse_keep_specs_loop (tok :: tokens) result =
    Raise (ValueError_int_digits (String.length (take_digits tok))).
Proof.
  intros Hok Hlong.
  destruct (parse_keep_specs_match tok tokens result Hok) as [pat [_ ->]].
  now rewrite (py_int_beyond _ Hlong).
Qed.

Lemma parse_keep_specs_error_step tok tokens result :
  token_accepted_b tok = false ->
  parse_keep_specs_loop (tok :: tokens) result = Raise (token_error tok).
Proof.
  unfold token_accepted_b, token_error. intros Hbad.
  destruct (token_ok tok) eqn:Hok.
  - apply parse_keep_specs_long_step; [assumption|].
    cbn [andb] in Hbad. apply Nat.leb_gt in Hbad. exact Hbad.
  - now apply parse_keep_specs_bad_step.
Qed.

Lemma parse_keep_specs_loop_ok tokens : forall result,
  Forall (fun tok => token_accepted_b tok = true) tokens ->
  exists kss,
    parse_keep_specs_loop tokens result = Ok (result ++ kss)%list /\
    Forall2 token_spec tokens kss.
Proof.
  induction tokens as [|tok tokens IH]; intros result Hall.
  - exists []. split; [cbn; now rewrite app_nil_r|constructor].
  - inversion Hall as [|? ? Hok Hrest]; subst.
    destruct (parse_keep_specs_step tok tokens result Hok) as [k [Hk ->]].
    destruct (IH (result ++ [k])%list Hrest) as [kss [-> Hkss]].
    exists (k :: kss). split; [now rewrite <- app_assoc|now constructor].
Qed.

Lemma parse_keep_specs_loop_bad pre : forall tok post result,
  Forall (fun tok => token_accepted_b tok = true) pre -> token_accepted_b tok = false ->
  parse_keep_specs_loop (pre ++ tok :: post)%list result = Raise (token_error tok).
Proof.
  induction pre as [|p pre IH]; intros tok post result Hpre Hbad.
  - now apply parse_keep_specs_error_step.
  - inversion Hpre as [|? ? Hok Hrest]; subst. cbn [app].
    destruct (parse_keep_specs_step p (pre ++ tok :: post)%list result Hok) as [k [_ ->]].
    now apply IH.
Qed.

Lemma first_bad_token tokens :
  Forall (fun tok => token_accepted_b tok = true) tokens \/
  exists pre tok post,
    tokens = (pre ++ tok :: post)%list /\
    Forall (fun tok => token_accepted_b tok = true) pre /\ token_accepted_b tok = false.
Proof.
  induction tokens as [|t tokens IH]; [left; constructor|].
  destruct (token_accepted_b t) eqn:Et.
  - destruct IH as [Hall|[pre [tok [post [-> [Hpre Hbad]]]]]].
    + left. now constructor.
    + right. exists (t :: pre), tok, post. repeat split; auto.
  - right. exists [], t, tokens. repeat split; auto.
Qed.

Lemma tokens_ok_Forall tokens :
  Forall (fun tok => token_accepted_b tok = true) tokens <-> Forall token_accepted tokens.
Proof.
  split; intros H; (eapply List.Forall_impl; [|exact H]); intros tok;
    apply token_accepted_iff.
Qed.

Lemma first_not_accepted_unique {tokens pre : list string} {tok post pre' tok' post'} :
  tokens = (pre ++ tok :: post)%list -> tokens = (pre' ++ tok' :: post')%list ->
  Forall token_accepted pre -> Forall token_accepted pre' ->
  ~ token_accepted tok -> ~ token_accepted tok' ->
  pre = pre' /\ tok = tok'.
Proof.
  intros -> E. revert pre' E.
  induction pre as [|p pre IH]; intros [|p' pre'] E Hpre Hpre' Hbad Hbad';
    cbn [app] in E; injection E as E1 E2; subst.
  - now split.
  - exfalso. inversion Hpre'; subst. auto.
  - exfalso. inversion Hpre; subst. auto.
  - inversion Hpre; inversion Hpre'; subst.
    destruct (IH pre' E2) as [-> ->]; auto.
Qed.

(** The outcome of [parse_keep_specs], by the first token that is not
    accepted. *)
Lemma parse_keep_specs_cases spec :
  (Forall token_accepted (split "," spec) /\
   exists kss, parse_keep_specs spec = Ok kss /\
               Forall2 token_spec (split "," spec) kss) \/
  (exists pre tok post,
     split "," spec = (pre ++ tok :: post)%list /\
     Forall token_accepted pre /\
     ((~ keep_spec_token tok /\
       parse_keep_specs spec = Raise (invalid_keep_spec tok)) \/
      (keep_spec_token tok /\
       (int_max_str_digits < String.length (take_digits tok))%nat /\
       parse_keep_specs spec =
         Raise (ValueError_int_digits (String.length (take_digits tok)))))).
Proof.
  unfold parse_keep_specs.
  destruct (first_bad_token (split "," spec))
    as [Hall|[pre [tok [post [Hsplit [Hpre Hbad]]]]]].
  - left. split; [now apply tokens_ok_Forall|].
    destruct (parse_keep_specs_loop_ok _ [] Hall) as [kss [H1 H2]]. eauto.
  - right. exists pre, tok, post. rewrite Hsplit.
    split; [reflexivity|]. split; [now apply tokens_ok_Forall|].
    rewrite (parse_keep_specs_loop_bad pre tok post [] Hpre Hbad).
    unfold token_error, token_accepted_b in *.
    destruct (token_ok tok) eqn:Hok.
    + right. cbn [andb] in Hbad. apply Nat.leb_gt in Hbad.
      split; [now apply token_ok_iff|]. split; [assumption|reflexivity].
    + left. split; [now apply token_ok_false|reflexivity].
Qed.

(** C3, as the code has it: a token is of the grammar when it is one or
    more decimal digits followed by a tag of [TIME_PATTERNS], whatever
    number the digits spell, zero included; it is accepted when moreover
    its digits are not more than [int] converts.  [parse_keep_specs]
    returns one keep spec per token, in order, when every comma-separated
    token is accepted.  Otherwise it raises at the first token that is
    not: "invalid keep spec", quoting the token, when the token is not of
    the grammar, and the [ValueError] of [int] when its count has too many
    digits.  So it raises "invalid keep spec" exactly when the first token
    that is not accepted is not of the grammar.  The empty string is its
    own single token and is rejected, and so is a tag without digits. *)
Theorem parse_keep_specs_outcome (spec : string) :
  ((Forall token_accepted (split "," spec) /\
    exists kss, parse_keep_specs spec = Ok kss /\
                Forall2 token_spec (split "," spec) kss) \/
   (exists pre tok post,
      split "," spec = (pre ++ tok :: post)%list /\
      Forall token_accepted pre /\
      ((~ keep_spec_token tok /\
        parse_keep_specs spec = Raise (invalid_keep_spec tok)) \/
       (keep_spec_token tok /\
        (int_max_str_digits < String.length (take_digits tok))%nat /\
        parse_keep_specs spec =
          Raise (ValueError_int_digits (String.length (take_digits tok))))))) /\
  ((exists e, parse_keep_specs spec = Raise e) <->
   (exists tok, In tok (split "," spec) /\ ~ token_accepted tok)) /\
  ((exists msg, parse_keep_specs spec = Raise (RuntimeError msg)) <->
   (exists pre tok post,
      split "," spec = (pre ++ tok :: post)%list /\
      Forall token_accepted pre /\ ~ keep_spec_token tok)) /\
  parse_keep_specs "" = Raise (invalid_keep_spec "") /\
  (forall tag, In tag (dict_keys TIME_PATTERNS) ->
     parse_keep_specs tag = Raise (invalid_keep_spec tag)) /\
  (forall tag pat, dict_get TIME_PATTERNS tag = Some pat ->
     parse_keep_specs ("0" +:+ tag) = Ok [mkKeepSpec pat 0]).
Proof.
  split; [apply parse_keep_specs_cases|].
  split; [|split; [|split; [|split]]].
  - destruct (parse_keep_specs_cases spec)
      as [[Hall [kss [Hok _]]]|[pre [tok [post [Hsplit [Hpre Hcase]]]]]].
    + split.
      * intros [e He]. congruence.
      * intros [tok [Hin Hbad]]. exfalso. apply Hbad.
        rewrite List.Forall_forall in Hall. now apply Hall.
    + split.
      * intros _. exists tok. split.
        -- rewrite Hsplit. apply in_app_iff. right. now left.
        -- intros [Hg Hfit]. destruct Hcase as [[Hng _]|[_ [Hlong _]]]; [auto|lia].
      * intros _. destruct Hcase as [[_ ->]|[_ [_ ->]]]; eauto.
  - destruct (parse_keep_specs_cases spec)
      as [[Hall [kss [Hok _]]]|[pre [tok [post [Hsplit [Hpre Hcase]]]]]].
    + split.
      * intros [msg He]. congruence.
      * intros [pre [tok [post [Hsplit [_ Hbad]]]]]. exfalso. apply Hbad.
        rewrite List.Forall_forall in Hall. apply Hall.
        rewrite Hsplit. apply in_app_iff. right. now left.
    + split.
      * intros [msg He]. exists pre, tok, post.
        split; [assumption|]. split; [assumption|].
        destruct Hcase as [[Hng _]|[_ [_ Hv]]]; [assumption|congruence].
      * intros [pre' [tok' [post' [Hsplit' [Hpre' Hbad']]]]].
        destruct Hcase as [[_ ->]|[Hg [Hlong _]]]; [unfold invalid_keep_spec; eauto|].
        exfalso.
        assert (~ token_accepted tok) as Hna by (intros [_ Hfit]; lia).
        assert (~ token_accepted tok') as Hna' by (intros [Hg' _]; auto).
        destruct (first_not_accepted_unique Hsplit Hsplit' Hpre Hpre' Hna Hna')
          as [_ <-].
        auto.
  - reflexivity.
  - intros tag Hin. cbn in Hin.
    repeat (destruct Hin as [<-|Hin]; [vm_compute; reflexivity|]). destruct Hin.
  - intros tag pat H. cbn [TIME_PATTERNS dict_get] in H.
    repeat match type of H with
           | context [String.eqb ?k tag] =>
               destruct (String.eqb_spec k tag) as [<-|_];
               [injection H as <-; vm_compute; reflexivity|]
           end.
    discriminate H.
Qed.

(** A token with a zero count is accepted. *)
Lemma parse_keep_specs_accepts_zero :
  parse_keep_specs "0d" = Ok [mkKeepSpec "%Y-%m-%d" 0].
Proof. vm_compute. reflexivity. Qed.

(** A count of more digits than [int] converts passes the pattern and is
    refused by [int]; the error is that of the first token that is not
    accepted. *)
Example parse_keep_specs_long_count :
  fullmatch KEEP_SPEC_PATTERN (nines 4301 +:+ "d") <> None /\
  parse_keep_specs (nines 4301 +:+ "d") = Raise (ValueError_int_digits 4301) /\
  parse_keep_specs (nines 4301 +:+ "d,x") = Raise (ValueError_int_digits 4301) /\
  parse_keep_specs ("x," +:+ nines 4301 +:+ "d") = Raise (invalid_keep_spec "x") /\
  exists n, parse_keep_specs (nines 4300 +:+ "d") = Ok [mkKeepSpec "%Y-%m-%d" n].
Proof.
  split; [vm_compute; discriminate|].
  repeat (split; [vm_compute; reflexivity|]).
  eexists. vm_compute. reflexivity.
Qed.

(** * The loop of arc_names_to_keep *)

Section KeepLoop.

Variable ks : KeepSpec.

Lemma keep_loop_names arcs : forall n prev,
  keep_loop ks n prev arcs = map name (kept_loop ks n prev arcs).
Proof.
  induction arcs as [|a arcs IH]; intros n prev; cbn [keep_loop kept_loop]; [reflexivity|].
  destruct (n =? num ks); [reflexivity|].
  destruct (negb (same_ts prev (strftime (timepattern ks) (timestamp a))));
    cbn [map]; now rewrite IH.
Qed.

Lemma kept_loop_length arcs : forall n prev,
  n <= num ks ->
  Z.of_nat (List.length (kept_loop ks n prev arcs)) <= num ks - n.
Proof.
  induction arcs as [|a arcs IH]; intros n prev Hn; cbn [kept_loop].
  - cbn. lia.
  - destruct (Z.eqb_spec n (num ks)); [cbn; lia|].
    destruct (negb (same_ts prev (strftime (timepattern ks) (timestamp a)))).
    + cbn [List.length]. specialize (IH (n + 1) (Some (strftime (timepattern ks) (timestamp a)))).
      lia.
    + now apply IH.
Qed.

Lemma kept_loop_In arcs : forall n prev x,
  In x (kept_loop ks n prev arcs) -> In x arcs.
Proof.
  induction arcs as [|a arcs IH]; intros n prev x; cbn [kept_loop]; [auto|].
  destruct (n =? num ks); [intros []|].
  destruct (negb (same_ts prev (strftime (timepattern ks) (timestamp a)))).
  - intros [->|H]; [now left|right; eauto].
  - intros H. right. eauto.
Qed.

Lemma same_ts_bucket (p : option Archive) a :
  same_ts (option_map (bucket ks) p) (bucket ks a) = true <->
  exists p0, p = Some p0 /\ bucket ks a = bucket ks p0.
Proof.
  destruct p as [p0|]; cbn [option_map same_ts].
  - rewrite String.eqb_eq. split; [eauto|]. now intros [? [[= <-] H]].
  - split; [discriminate|]. now intros [? [? _]].
Qed.

Lemma sorted_desc_drop_second p a l :
  sorted_desc (p :: a :: l) -> sorted_desc (p :: l).
Proof.
  intros H. inversion H as [|? ? Hal Hp]; subst.
  inversion Hal; subst. inversion Hp; subst. now constructor.
Qed.

Lemma convex_on_incl l l' : (forall x, In x l' -> In x l) -> convex_on ks l -> convex_on ks l'.
Proof. intros Hincl Hc a b c Ha Hb Hc'. apply Hc; auto. Qed.

(** An archive that is kept is the first of its bucket: no archive in front
    of it, nor the one whose bucket [prev_ts] holds, is in its bucket. *)
Lemma kept_loop_first l : forall (p : option Archive) n x,
  sorted_desc (opt_list p ++ l) -> convex_on ks (opt_list p ++ l) ->
  In x (kept_loop ks n (option_map (bucket ks) p) l) ->
  exists l1 l2, l = (l1 ++ x :: l2)%list /\
    forall q, In q (opt_list p ++ l1) -> bucket ks q <> bucket ks x.
Proof.
  induction l as [|a l IH]; intros p n x Hs Hc; cbn [kept_loop]; [intros []|].
  destruct (n =? num ks); [intros []|].
  fold (bucket ks a).
  destruct (same_ts (option_map (bucket ks) p) (bucket ks a)) eqn:Esame; cbn [negb].
  - apply same_ts_bucket in Esame as [p0 [-> Hb]]. cbn [opt_list app] in *.
    intros Hx.
    destruct (IH (Some p0) n x) as [l1 [l2 [-> Hq]]]; cbn [opt_list app option_map].
    + eapply sorted_desc_drop_second; eauto.
    + eapply convex_on_incl; [|exact Hc]. intros y [->|Hy]; [now left|right; now right].
    + exact Hx.
    + exists (a :: l1), l2. split; [reflexivity|].
      intros q [->|[->|Hq1]].
      * apply Hq. now left.
      * rewrite Hb. apply Hq. now left.
      * apply Hq. now right.
  - assert (forall p0, p = Some p0 -> bucket ks a <> bucket ks p0) as Hdiff.
    { intros p0 -> Hb.
      assert (same_ts (option_map (bucket ks) (Some p0)) (bucket ks a) = true) as Ht
        by (apply same_ts_bucket; eauto).
      congruence. }
    intros [<-|Hx].
    + exists [], l. split; [reflexivity|].
      rewrite app_nil_r. destruct p as [p0|]; cbn [opt_list]; [|intros q []].
      intros q [Hq|[]] Hb. subst q. now apply (Hdiff p0).
    + assert (sorted_desc (a :: l)) as Hs'.
      { destruct p; cbn [opt_list app] in Hs; [now inversion Hs|exact Hs]. }
      destruct (IH (Some a) (n + 1) x) as [l1 [l2 [-> Hq]]]; cbn [opt_list app option_map].
      * exact Hs'.
      * eapply convex_on_incl; [|exact Hc]. intros y Hy. apply in_app_iff. now right.
      * exact Hx.
      * exists (a :: l1), l2. split; [reflexivity|].
        intros q Hin. apply in_app_iff in Hin as [Hin|Hin]; [|now apply Hq].
        destruct p as [p0|]; cbn [opt_list] in Hin; [|destruct Hin].
        destruct Hin as [Hq0|[]]. subst q. intros Hb.
        apply (Hdiff p0 eq_refl).
        cbn [opt_list app] in Hs, Hc.
        inversion Hs as [|? ? _ Hall]; subst.
        rewrite List.Forall_forall in Hall.
        inversion Hs' as [|? ? _ Hall']; subst.
        rewrite List.Forall_forall in Hall'.
        apply (Hc p0 a x).
        -- now left.
        -- right. now left.
        -- right. right. apply in_app_iff. right. now left.
        -- apply Hall. now left.
        -- apply Hall'. apply in_app_iff. right. now left.
        -- exact Hb.
Qed.

Lemma kept_loop_buckets_distinct l : forall n prev,
  sorted_desc l -> convex_on ks l ->
  List.NoDup (map (bucket ks) (kept_loop ks n prev l)).
Proof.
  induction l as [|a l IH]; intros n prev Hs Hc; cbn [kept_loop]; [constructor|].
  assert (sorted_desc l) as Hs' by now inversion Hs.
  assert (convex_on ks l) as Hc'
    by (eapply convex_on_incl; [|exact Hc]; intros y Hy; now right).
  destruct (n =? num ks); [constructor|].
  destruct (negb (same_ts prev (strftime (timepattern ks) (timestamp a)))); [|auto].
  cbn [map]. constructor; [|auto].
  intros Hin. apply in_map_iff in Hin as [x [Hb Hx]].
  destruct (kept_loop_first l (Some a) (n + 1) x) as [l1 [l2 [_ Hq]]]; auto.
  apply (Hq a); [now left|]. now symmetry.
Qed.

Lemma kept_arcs_newest arcs x :
  sorted_desc arcs -> convex_on ks arcs -> In x (kept_arcs arcs ks) ->
  In x arcs /\
  forall b, In b arcs -> bucket ks b = bucket ks x -> dt_le (timestamp b) (timestamp x).
Proof.
  intros Hs Hc Hx. split; [eapply kept_loop_In; exact Hx|].
  destruct (kept_loop_first arcs None 0 x Hs Hc Hx) as [l1 [l2 [-> Hq]]].
  cbn [opt_list app] in Hq.
  intros b Hb Heq. apply in_app_iff in Hb as [Hb|[<-|Hb]].
  - now destruct (Hq b Hb).
  - apply dt_le_refl.
  - assert (sorted_desc (x :: l2)) as Hx2.
    { clear - Hs. induction l1 as [|y l1 IH]; [exact Hs|].
      apply IH. now inversion Hs. }
    inversion Hx2 as [|? ? _ Hall]; subst.
    rewrite List.Forall_forall in Hall. now apply Hall.
Qed.

End KeepLoop.

(** * The calendar *)

Lemma digit_inj a b :
  0 <= a < 200 -> 0 <= b < 200 -> digit a = digit b -> a = b.
Proof.
  intros Ha Hb H. unfold digit in H.
  apply (f_equal nat_of_ascii) in H.
  rewrite !nat_ascii_embedding in H by lia. lia.
Qed.

Lemma pad2_inj a b : 0 <= a < 100 -> 0 <= b < 100 -> pad2 a = pad2 b -> a = b.
Proof.
  intros Ha Hb H. unfold pad2 in H. injection H as H1 H0.
  apply digit_inj in H1; [|Z.div_mod_to_equations; lia..].
  apply digit_inj in H0; [|Z.div_mod_to_equations; lia..].
  Z.div_mod_to_equations. lia.
Qed.

Lemma pad4_inj a b : 0 <= a <= 10000 -> 0 <= b <= 10000 -> pad4 a = pad4 b -> a = b.
Proof.
  intros Ha Hb H. unfold pad4 in H. injection H as H3 H2 H1 H0.
  apply digit_inj in H3; [|Z.div_mod_to_equations; lia..].
  apply digit_inj in H2; [|Z.div_mod_to_equations; lia..].
  apply digit_inj in H1; [|Z.div_mod_to_equations; lia..].
  apply digit_inj in H0; [|Z.div_mod_to_equations; lia..].
  Z.div_mod_to_equations. lia.
Qed.

Lemma days_before_year_step y :
  365 <= days_before_year (y + 1) - days_before_year y <= 366.
Proof.
  unfold days_before_year. cbn zeta.
  replace (y + 1 - 1) with y by lia.
  Z.div_mod_to_equations. lia.
Qed.

Lemma days_before_year_leap y :
  days_before_year (y + 1) =
  days_before_year y + 365 + (if is_leap y then 1 else 0).
Proof.
  unfold days_before_year, is_leap. cbn zeta.
  replace (y + 1 - 1) with y by lia.
  destruct (Z.eqb_spec (y mod 4) 0), (Z.eqb_spec (y mod 100) 0),
    (Z.eqb_spec (y mod 400) 0); cbn [negb orb andb];
    Z.div_mod_to_equations; lia.
Qed.

Lemma days_before_year_mono y y' : y <= y' -> days_before_year y <= days_before_year y'.
Proof.
  intros H. unfold days_before_year. cbn zeta.
  Z.div_mod_to_equations. lia.
Qed.

Lemma valid_datetime_bounds t :
  valid_datetime t = true ->
  1 <= year t <= 9999 /\ 1 <= month t <= 12 /\
  1 <= day t <= days_in_month (year t) (month t) /\
  0 <= hour t < 24 /\ 0 <= minute t < 60 /\ 0 <= second t < 60 /\
  0 <= microsecond t < 1000000.
Proof.
  unfold valid_datetime. rewrite !andb_true_iff.
  rewrite !Z.leb_le, !Z.ltb_lt. lia.
Qed.

Lemma month_cases m :
  1 <= m <= 12 ->
  m = 1 \/ m = 2 \/ m = 3 \/ m = 4 \/ m = 5 \/ m = 6 \/
  m = 7 \/ m = 8 \/ m = 9 \/ m = 10 \/ m = 11 \/ m = 12.
Proof. lia. Qed.

Ltac month_split m H :=
  destruct (month_cases m H)
    as [?|[?|[?|[?|[?|[?|[?|[?|[?|[?|[?|?]]]]]]]]]]]; subst m.

Lemma days_in_year y m d :
  1 <= m <= 12 -> 1 <= d <= days_in_month y m ->
  1 <= days_before_month y m + d <= 365 + (if is_leap y then 1 else 0).
Proof.
  intros Hm Hd. unfold days_before_month, days_in_month in *.
  month_split m Hm; cbn in Hd |- *; destruct (is_leap y); cbn in Hd |- *; lia.
Qed.

Lemma days_before_next_month y m m' d :
  1 <= m -> m < m' -> m' <= 12 -> d <= days_in_month y m ->
  days_before_month y m + d <= days_before_month y m'.
Proof.
  intros H1 Hlt H12 Hd. unfold days_before_month, days_in_month in *.
  assert (1 <= m <= 12) as Hm by lia. assert (1 <= m' <= 12) as Hm' by lia.
  month_split m Hm; month_split m' Hm'; try lia;
    cbn in Hd |- *; destruct (is_leap y); cbn in Hd |- *; lia.
Qed.

Lemma ordinal_in_year t :
  valid_datetime t = true ->
  days_before_year (year t) + 1 <= ordinal t <= days_before_year (year t + 1).
Proof.
  intros Hv. apply valid_datetime_bounds in Hv as [_ [Hm [Hd _]]].
  unfold ordinal, ymd2ord. rewrite days_before_year_leap.
  pose proof (days_in_year _ _ _ Hm Hd). lia.
Qed.

Lemma dt_le_date_le t t' : dt_le t t' -> date_le t t'.
Proof.
  unfold dt_le, dt_ltb, dt_key, date_le. cbn [lex_compare].
  destruct (Z.compare_spec (year t') (year t)); [|intros; discriminate|lia].
  destruct (Z.compare_spec (month t') (month t)); [|intros; discriminate|lia].
  destruct (Z.compare_spec (day t') (day t)); [|intros; discriminate|lia].
  lia.
Qed.

Lemma ordinal_mono t t' :
  valid_datetime t = true -> valid_datetime t' = true ->
  date_le t t' -> ordinal t <= ordinal t'.
Proof.
  intros Hv Hv' Hle.
  pose proof (ordinal_in_year t Hv) as Ho. pose proof (ordinal_in_year t' Hv') as Ho'.
  apply valid_datetime_bounds in Hv as [_ [Hm [Hd _]]].
  apply valid_datetime_bounds in Hv' as [_ [Hm' [Hd' _]]].
  destruct Hle as [Hy|[Hy [Hmo|[Hmo Hda]]]].
  - pose proof (days_before_year_mono (year t + 1) (year t')). lia.
  - unfold ordinal, ymd2ord. rewrite Hy in *.
    pose proof (days_before_next_month (year t') (month t) (month t') (day t)). lia.
  - unfold ordinal, ymd2ord. rewrite Hy, Hmo. lia.
Qed.

Lemma isoweek1monday_spec y :
  (isoweek1monday y - 1) mod 7 = 0 /\
  days_before_year y - 2 <= isoweek1monday y <= days_before_year y + 4.
Proof.
  unfold isoweek1monday, ymd2ord. cbn zeta.
  change (days_before_month y 1) with 0.
  destruct (Z.ltb_spec 3 ((days_before_year y + 0 + 1 + 6) mod 7));
    Z.div_mod_to_equations; lia.
Qed.

Lemma isoweek1monday_step y :
  364 <= isoweek1monday (y + 1) - isoweek1monday y <= 371.
Proof.
  pose proof (isoweek1monday_spec y) as [H0 Hb0].
  pose proof (isoweek1monday_spec (y + 1)) as [H1 Hb1].
  pose proof (days_before_year_step y).
  Z.div_mod_to_equations. lia.
Qed.

Lemma isocalendar_spec t :
  valid_datetime t = true ->
  year t - 1 <= fst (isocalendar t) <= year t + 1 /\
  isoweek1monday (fst (isocalendar t)) <= ordinal t
    < isoweek1monday (fst (isocalendar t) + 1) /\
  snd (isocalendar t) = (ordinal t - isoweek1monday (fst (isocalendar t))) / 7 + 1.
Proof.
  intros Hv. pose proof (ordinal_in_year t Hv) as Ho.
  unfold isocalendar. fold (ordinal t). cbn zeta.
  pose proof (isoweek1monday_spec (year t)) as [Hm0 Hb0].
  pose proof (isoweek1monday_spec (year t + 1)) as [Hm1 Hb1].
  pose proof (isoweek1monday_step (year t - 1)) as Hs0.
  replace (year t - 1 + 1) with (year t) in Hs0 by lia.
  pose proof (isoweek1monday_step (year t)) as Hs1.
  pose proof (isoweek1monday_step (year t + 1)) as Hs2.
  destruct (Z.ltb_spec ((ordinal t - isoweek1monday (year t)) / 7) 0) as [Hneg|Hpos].
  - cbn [fst snd]. replace (year t - 1 + 1) with (year t) by lia.
    split; [lia|]. split; [|reflexivity].
    Z.div_mod_to_equations. lia.
  - destruct (Z.leb_spec 52 ((ordinal t - isoweek1monday (year t)) / 7)) as [H52|H52];
      cbn [andb].
    + destruct (Z.leb_spec (isoweek1monday (year t + 1)) (ordinal t)) as [Hn|Hn];
        cbn [fst snd].
      * split; [lia|]. split; [lia|]. Z.div_mod_to_equations. lia.
      * split; [lia|]. split; [|reflexivity]. Z.div_mod_to_equations. lia.
    + cbn [fst snd]. split; [lia|]. split; [|reflexivity].
      Z.div_mod_to_equations. lia.
Qed.

Lemma isocalendar_week_range t :
  valid_datetime t = true -> 1 <= snd (isocalendar t) <= 53.
Proof.
  intros Hv. destruct (isocalendar_spec t Hv) as [_ [Ho ->]].
  pose proof (isoweek1monday_step (fst (isocalendar t))).
  Z.div_mod_to_equations. lia.
Qed.

Lemma isocalendar_mono t t' :
  valid_datetime t = true -> valid_datetime t' = true -> date_le t t' ->
  fst (isocalendar t) < fst (isocalendar t') \/
  (fst (isocalendar t) = fst (isocalendar t') /\
   snd (isocalendar t) <= snd (isocalendar t')).
Proof.
  intros Hv Hv' Hle.
  pose proof (ordinal_mono t t' Hv Hv' Hle) as Hord.
  destruct (isocalendar_spec t Hv) as [Hg [Ho Hw]].
  destruct (isocalendar_spec t' Hv') as [Hg' [Ho' Hw']].
  assert (year t <= year t') as Hy by (unfold date_le in Hle; lia).
  set (G := fst (isocalendar t)) in *. set (G' := fst (isocalendar t')) in *.
  destruct (Z.lt_trichotomy G G') as [Hlt|[Heq|Hgt]]; [now left| |].
  - right. split; [assumption|]. rewrite Hw, Hw', Heq.
    Z.div_mod_to_equations. lia.
  - exfalso. assert (G = G' + 1 \/ G = G' + 2) as [HG|HG] by lia.
    + rewrite HG in Ho. lia.
    + pose proof (isoweek1monday_step (G' + 1)) as Hs.
      replace (G' + 1 + 1) with (G' + 2) in Hs by lia.
      rewrite HG in Ho. lia.
Qed.

(** * Bucket keys *)

Lemma strftime_s t :
  strftime "%Y-%m-%d %H:%M:%S" t =
  pad4 (year t) +:+ String "-" (pad2 (month t) +:+ String "-" (pad2 (day t) +:+
  String " " (pad2 (hour t) +:+ String ":" (pad2 (minute t) +:+
  String ":" (pad2 (second t) +:+ ""))))).
Proof. reflexivity. Qed.

Lemma strftime_min t :
  strftime "%Y-%m-%d %H:%M" t =
  pad4 (year t) +:+ String "-" (pad2 (month t) +:+ String "-" (pad2 (day t) +:+
  String " " (pad2 (hour t) +:+ String ":" (pad2 (minute t) +:+ "")))).
Proof. reflexivity. Qed.

Lemma strftime_h t :
  strftime "%Y-%m-%d %H" t =
  pad4 (year t) +:+ String "-" (pad2 (month t) +:+ String "-" (pad2 (day t) +:+
  String " " (pad2 (hour t) +:+ ""))).
Proof. reflexivity. Qed.

Lemma strftime_d t :
  strftime "%Y-%m-%d" t =
  pad4 (year t) +:+ String "-" (pad2 (month t) +:+ String "-" (pad2 (day t) +:+ "")).
Proof. reflexivity. Qed.

Lemma strftime_w t :
  strftime "%G-%V" t =
  pad4 (fst (isocalendar t)) +:+ String "-" (pad2 (snd (isocalendar t)) +:+ "").
Proof. reflexivity. Qed.

Lemma strftime_mon t :
  strftime "%Y-%m" t = pad4 (year t) +:+ String "-" (pad2 (month t) +:+ "").
Proof. reflexivity. Qed.

Lemma strftime_y t : strftime "%Y" t = pad4 (year t) +:+ "".
Proof. reflexivity. Qed.

Lemma app_pad4_inj a b s s' :
  0 <= a <= 10000 -> 0 <= b <= 10000 ->
  pad4 a +:+ s = pad4 b +:+ s' -> a = b /\ s = s'.
Proof.
  intros Ha Hb H. cbv [pad4 String.append] in H.
  injection H as H3 H2 H1 H0 Hs. split; [|assumption].
  apply pad4_inj; [assumption..|]. unfold pad4. congruence.
Qed.

Lemma app_pad2_inj a b s s' :
  0 <= a < 100 -> 0 <= b < 100 ->
  pad2 a +:+ s = pad2 b +:+ s' -> a = b /\ s = s'.
Proof.
  intros Ha Hb H. cbv [pad2 String.append] in H.
  injection H as H1 H0 Hs. split; [|assumption].
  apply pad2_inj; [assumption..|]. unfold pad2. congruence.
Qed.

Lemma dt_le_fields t t' :
  dt_le t t' ->
  year t < year t' \/ (year t = year t' /\
  (month t < month t' \/ (month t = month t' /\
  (day t < day t' \/ (day t = day t' /\
  (hour t < hour t' \/ (hour t = hour t' /\
  (minute t < minute t' \/ (minute t = minute t' /\
  (second t < second t' \/ (second t = second t' /\
   microsecond t <= microsecond t'))))))))))).
Proof.
  unfold dt_le, dt_ltb, dt_key. cbn [lex_compare].
  destruct (Z.compare_spec (year t') (year t)); [|intros; discriminate|lia].
  destruct (Z.compare_spec (month t') (month t)); [|intros; discriminate|lia].
  destruct (Z.compare_spec (day t') (day t)); [|intros; discriminate|lia].
  destruct (Z.compare_spec (hour t') (hour t)); [|intros; discriminate|lia].
  destruct (Z.compare_spec (minute t') (minute t)); [|intros; discriminate|lia].
  destruct (Z.compare_spec (second t') (second t)); [|intros; discriminate|lia].
  destruct (Z.compare_spec (microsecond t') (microsecond t));
    [lia|intros; discriminate|lia].
Qed.

Lemma days_in_month_le y m : days_in_month y m <= 31.
Proof.
  unfold days_in_month. destruct ((m =? 2) && is_leap y); [lia|].
  destruct m as [|p|p]; try lia.
  do 4 (try destruct p as [p|p|]); lia.
Qed.

Lemma String_tail_inj c s s' : String c s = String c s' -> s = s'.
Proof. now intros [= H]. Qed.

Lemma lex_sandwich (x1 x2 x3 : Z) (P32 P21 : Prop) :
  x3 < x2 \/ (x3 = x2 /\ P32) -> x2 < x1 \/ (x2 = x1 /\ P21) -> x1 = x3 ->
  x2 = x1 /\ P32 /\ P21.
Proof. intros [H32|[E32 H32]] [H21|[E21 H21]] E; try lia. auto. Qed.

(** Between two datetimes with one key under a pattern of [TIME_PATTERNS],
    every datetime has that key. *)
Lemma strftime_convex pat t1 t2 t3 :
  In pat (dict_values TIME_PATTERNS) ->
  valid_datetime t1 = true -> valid_datetime t2 = true -> valid_datetime t3 = true ->
  dt_le t3 t2 -> dt_le t2 t1 ->
  strftime pat t1 = strftime pat t3 -> strftime pat t2 = strftime pat t1.
Proof.
  intros Hpat Hv1 Hv2 Hv3 H32 H21 Heq.
  pose proof (valid_datetime_bounds _ Hv1) as [By1 [Bm1 [Bd1 [Bh1 [Bi1 [Bs1 _]]]]]].
  pose proof (valid_datetime_bounds _ Hv3) as [By3 [Bm3 [Bd3 [Bh3 [Bi3 [Bs3 _]]]]]].
  pose proof (days_in_month_le (year t1) (month t1)) as D1.
  pose proof (days_in_month_le (year t3) (month t3)) as D3.
  cbn in Hpat.
  destruct Hpat as [<-|[<-|[<-|[<-|[<-|[<-|[<-|[]]]]]]]].
  - rewrite !strftime_s in *. apply dt_le_fields in H32, H21.
    apply app_pad4_inj in Heq as [Ey Heq]; [|lia..]. apply String_tail_inj in Heq.
    apply app_pad2_inj in Heq as [Em Heq]; [|lia..]. apply String_tail_inj in Heq.
    apply app_pad2_inj in Heq as [Ed Heq]; [|lia..]. apply String_tail_inj in Heq.
    apply app_pad2_inj in Heq as [Eh Heq]; [|lia..]. apply String_tail_inj in Heq.
    apply app_pad2_inj in Heq as [Ei Heq]; [|lia..]. apply String_tail_inj in Heq.
    apply app_pad2_inj in Heq as [Es _]; [|lia..].
    destruct (lex_sandwich _ _ _ _ _ H32 H21 Ey) as [-> [H32a H21a]].
    destruct (lex_sandwich _ _ _ _ _ H32a H21a Em) as [-> [H32b H21b]].
    destruct (lex_sandwich _ _ _ _ _ H32b H21b Ed) as [-> [H32c H21c]].
    destruct (lex_sandwich _ _ _ _ _ H32c H21c Eh) as [-> [H32d H21d]].
    destruct (lex_sandwich _ _ _ _ _ H32d H21d Ei) as [-> [H32e H21e]].
    destruct (lex_sandwich _ _ _ _ _ H32e H21e Es) as [-> _].
    reflexivity.
  - rewrite !strftime_min in *. apply dt_le_fields in H32, H21.
    apply app_pad4_inj in Heq as [Ey Heq]; [|lia..]. apply String_tail_inj in Heq.
    apply app_pad2_inj in Heq as [Em Heq]; [|lia..]. apply String_tail_inj in Heq.
    apply app_pad2_inj in Heq as [Ed Heq]; [|lia..]. apply String_tail_inj in Heq.
    apply app_pad2_inj in Heq as [Eh Heq]; [|lia..]. apply String_tail_inj in Heq.
    apply app_pad2_inj in Heq as [Ei _]; [|lia..].
    destruct (lex_sandwich _ _ _ _ _ H32 H21 Ey) as [-> [H32a H21a]].
    destruct (lex_sandwich _ _ _ _ _ H32a H21a Em) as [-> [H32b H21b]].
    destruct (lex_sandwich _ _ _ _ _ H32b H21b Ed) as [-> [H32c H21c]].
    destruct (lex_sandwich _ _ _ _ _ H32c H21c Eh) as [-> [H32d H21d]].
    destruct (lex_sandwich _ _ _ _ _ H32d H21d Ei) as [-> _].
    reflexivity.
  - rewrite !strftime_h in *. apply dt_le_fields in H32, H21.
    apply app_pad4_inj in Heq as [Ey Heq]; [|lia..]. apply String_tail_inj in Heq.
    apply app_pad2_inj in Heq as [Em Heq]; [|lia..]. apply String_tail_inj in Heq.
    apply app_pad2_inj in Heq as [Ed Heq]; [|lia..]. apply String_tail_inj in Heq.
    apply app_pad2_inj in Heq as [Eh _]; [|lia..].
    destruct (lex_sandwich _ _ _ _ _ H32 H21 Ey) as [-> [H32a H21a]].
    destruct (lex_sandwich _ _ _ _ _ H32a H21a Em) as [-> [H32b H21b]].
    destruct (lex_sandwich _ _ _ _ _ H32b H21b Ed) as [-> [H32c H21c]].
    destruct (lex_sandwich _ _ _ _ _ H32c H21c Eh) as [-> _].
    reflexivity.
  - rewrite !strftime_d in *. apply dt_le_fields in H32, H21.
    apply app_pad4_inj in Heq as [Ey Heq]; [|lia..]. apply String_tail_inj in Heq.
    apply app_pad2_inj in Heq as [Em Heq]; [|lia..]. apply String_tail_inj in Heq.
    apply app_pad2_inj in Heq as [Ed _]; [|lia..].
    destruct (lex_sandwich _ _ _ _ _ H32 H21 Ey) as [-> [H32a H21a]].
    destruct (lex_sandwich _ _ _ _ _ H32a H21a Em) as [-> [H32b H21b]].
    destruct (lex_sandwich _ _ _ _ _ H32b H21b Ed) as [-> _].
    reflexivity.
  - rewrite !strftime_w in *.
    apply dt_le_date_le in H32, H21.
    pose proof (isocalendar_mono _ _ Hv3 Hv2 H32) as M32.
    pose proof (isocalendar_mono _ _ Hv2 Hv1 H21) as M21.
    pose proof (isocalendar_spec _ Hv1) as [G1 _].
    pose proof (isocalendar_spec _ Hv3) as [G3 _].
    pose proof (isocalendar_week_range _ Hv1) as W1.
    pose proof (isocalendar_week_range _ Hv3) as W3.
    apply app_pad4_inj in Heq as [Eg Heq]; [|lia..]. apply String_tail_inj in Heq.
    apply app_pad2_inj in Heq as [Ew _]; [|lia..].
    assert (fst (isocalendar t2) = fst (isocalendar t1) /\
            snd (isocalendar t2) = snd (isocalendar t1)) as [-> ->] by lia.
    reflexivity.
  - rewrite !strftime_mon in *. apply dt_le_fields in H32, H21.
    apply app_pad4_inj in Heq as [Ey Heq]; [|lia..]. apply String_tail_inj in Heq.
    apply app_pad2_inj in Heq as [Em _]; [|lia..].
    destruct (lex_sandwich _ _ _ _ _ H32 H21 Ey) as [-> [H32a H21a]].
    destruct (lex_sandwich _ _ _ _ _ H32a H21a Em) as [-> _].
    reflexivity.
  - rewrite !strftime_y in *. apply dt_le_fields in H32, H21.
    apply app_pad4_inj in Heq as [Ey _]; [|lia..].
    destruct (lex_sandwich _ _ _ _ _ H32 H21 Ey) as [-> _].
    reflexivity.
Qed.

(** * Claims about the selector *)

Lemma convex_on_patterns ks0 l :
  In (timepattern ks0) (dict_values TIME_PATTERNS) ->
  Forall (fun a => valid_datetime (timestamp a) = true) l ->
  convex_on ks0 l.
Proof.
  intros Hpat Hv a b c Ha Hb Hc Hab Hbc Heq.
  rewrite List.Forall_forall in Hv.
  unfold bucket in *. unfold newer_or_same in *.
  apply (strftime_convex _ (timestamp a) (timestamp b) (timestamp c)); auto.
Qed.

(** C1: on archives sorted newest first, under a keep spec of
    [TIME_PATTERNS] with count [num >= 0], [arc_names_to_keep] yields the
    names of at most [num] archives; these archives have pairwise
    different bucket keys, and each is the newest of the archives that
    share its bucket key.  In the loop, an archive whose bucket key is the
    one of the archive yielded last is passed over, and the loop goes on
    from the same count; any other archive is yielded and counted. *)
Theorem arc_names_to_keep_newest_per_bucket (arcs : list Archive) (ks0 : KeepSpec) :
  In (timepattern ks0) (dict_values TIME_PATTERNS) ->
  0 <= num ks0 ->
  Forall (fun a => valid_datetime (timestamp a) = true) arcs ->
  sorted_desc arcs ->
  arc_names_to_keep arcs ks0 = map name (kept_arcs arcs ks0) /\
  Z.of_nat (List.length (arc_names_to_keep arcs ks0)) <= num ks0 /\
  List.NoDup (map (bucket ks0) (kept_arcs arcs ks0)) /\
  (forall a, In a (kept_arcs arcs ks0) ->
     In a arcs /\
     forall b, In b arcs -> bucket ks0 b = bucket ks0 a ->
               dt_le (timestamp b) (timestamp a)) /\
  (forall n prev a rest, n <> num ks0 ->
     (prev = Some (bucket ks0 a) ->
      keep_loop ks0 n prev (a :: rest) = keep_loop ks0 n prev rest) /\
     (prev <> Some (bucket ks0 a) ->
      keep_loop ks0 n prev (a :: rest) =
      name a :: keep_loop ks0 (n + 1) (Some (bucket ks0 a)) rest)).
Proof.
  intros Hpat Hnum Hv Hs.
  pose proof (convex_on_patterns ks0 arcs Hpat Hv) as Hc.
  split; [apply keep_loop_names|].
  split.
  { unfold arc_names_to_keep. rewrite keep_loop_names, length_map.
    pose proof (kept_loop_length ks0 arcs 0 None Hnum). lia. }
  split; [now apply kept_loop_buckets_distinct|].
  split; [intros a Ha; now apply kept_arcs_newest|].
  intros n prev a rest Hn. cbn [keep_loop]. fold (bucket ks0 a).
  destruct (Z.eqb_spec n (num ks0)) as [|_]; [contradiction|].
  split.
  - intros ->. cbn [same_ts]. now rewrite String.eqb_refl.
  - intros Hprev. destruct prev as [p|]; cbn [same_ts negb]; [|reflexivity].
    destruct (String.eqb_spec (bucket ks0 a) p) as [<-|]; [contradiction|reflexivity].
Qed.

Lemma arc_names_to_keep_newest_per_bucket_witness :
  arc_names_to_keep march_to_january (ks "mon" 2) =
    map name (kept_arcs march_to_january (ks "mon" 2)) /\
  Z.of_nat (List.length (arc_names_to_keep march_to_january (ks "mon" 2))) <= 2 /\
  List.NoDup (map (bucket (ks "mon" 2)) (kept_arcs march_to_january (ks "mon" 2))).
Proof.
  assert (In (timepattern (ks "mon" 2)) (dict_values TIME_PATTERNS)) as Hpat
    by (cbn; tauto).
  assert (0 <= num (ks "mon" 2)) as Hnum by (cbn; lia).
  assert (Forall (fun a => valid_datetime (timestamp a) = true) march_to_january) as Hv
    by (repeat constructor).
  assert (sorted_desc march_to_january) as Hs by (repeat constructor).
  destruct (arc_names_to_keep_newest_per_bucket march_to_january (ks "mon" 2)
              Hpat Hnum Hv Hs) as [H1 [H2 [H3 _]]].
  split; [exact H1|]. split; [exact H2|exact H3].
Defined.

(** * Further properties of the selector *)

Lemma is_retained_name arcs kss a b :
  name a = name b -> is_retained arcs kss a = is_retained arcs kss b.
Proof. unfold is_retained. now intros ->. Qed.

Lemma arc_names_to_delete_In arcs kss n :
  In n (snd (arc_names_to_delete arcs kss)) <->
  (exists a, In a (sort_desc arcs) /\ name a = n) /\
  ~ In n (retained (sort_desc arcs) kss).
Proof.
  rewrite arc_names_to_delete_snd, in_map_iff. split.
  - intros [a [Hn Ha]]. apply filter_In in Ha as [Ha Hr].
    split; [eauto|]. intros Hin. subst n.
    apply is_retained_In in Hin. rewrite Hin in Hr. discriminate.
  - intros [[a [Ha Hn]] Hno]. exists a. split; [assumption|].
    apply filter_In. split; [assumption|].
    destruct (is_retained (sort_desc arcs) kss a) eqn:E; [|reflexivity].
    apply is_retained_In in E. subst n. contradiction.
Qed.

Lemma arc_names_to_keep_head a rest k :
  num k <> 0 ->
  arc_names_to_keep (a :: rest) k =
  name a :: keep_loop k 1 (Some (bucket k a)) rest.
Proof.
  intros Hn. unfold arc_names_to_keep. cbn [keep_loop].
  destruct (Z.eqb_spec 0 (num k)) as [E|_]; [congruence|reflexivity].
Qed.

(** X1: the newest archive of the list is never yielded for deletion when some
    keep spec has a count other than zero. *)
Theorem newest_archive_is_never_deleted
    (arcs : list Archive) (kss : list KeepSpec) (a : Archive) (rest : list Archive) :
  fst (arc_names_to_delete arcs kss) = a :: rest ->
  (exists k, In k kss /\ num k <> 0) ->
  In a arcs /\
  (forall b, In b arcs -> dt_le (timestamp b) (timestamp a)) /\
  ~ In (name a) (snd (arc_names_to_delete arcs kss)).
Proof.
  change (fst (arc_names_to_delete arcs kss)) with (sort_desc arcs).
  intros Hsorted [k [Hk Hnum]].
  pose proof (sort_desc_perm arcs) as Hperm.
  pose proof (sort_desc_sorted arcs) as Hs. rewrite Hsorted in Hperm, Hs.
  split; [|split].
  - eapply Permutation_in; [apply Permutation_sym, Hperm|now left].
  - intros b Hb. apply (Permutation_in _ Hperm) in Hb as [<-|Hb]; [apply dt_le_refl|].
    inversion Hs as [|? ? _ Hall]; subst. rewrite List.Forall_forall in Hall.
    now apply Hall.
  - rewrite arc_names_to_delete_In, Hsorted. intros [_ Hno]. apply Hno.
    unfold retained. apply in_flat_map. exists k. split; [assumption|].
    rewrite arc_names_to_keep_head by assumption. now left.
Qed.

Lemma newest_archive_is_never_deleted_witness :
  ~ In "1" (snd (arc_names_to_delete
                   [arc "2" 2000 1 30; arc "1" 2000 1 31] [ks "y" 1])).
Proof.
  apply (newest_archive_is_never_deleted
           [arc "2" 2000 1 30; arc "1" 2000 1 31] [ks "y" 1]
           (arc "1" 2000 1 31) [arc "2" 2000 1 30]).
  - reflexivity.
  - exists (ks "y" 1). split; [now left|discriminate].
Defined.

Lemma keep_loop_zero k arcs : num k = 0 -> arc_names_to_keep arcs k = [].
Proof.
  intros H. unfold arc_names_to_keep. destruct arcs as [|a arcs]; [reflexivity|].
  cbn [keep_loop]. rewrite H. reflexivity.
Qed.

Lemma filter_all {A} (f : A -> bool) l :
  (forall a, In a l -> f a = true) -> List.filter f l = l.
Proof.
  induction l as [|a l IH]; intros H; cbn [List.filter]; [reflexivity|].
  rewrite (H a) by now left. f_equal. apply IH. intros x Hx. apply H. now right.
Qed.

(** X2: a keep spec with count zero retains nothing, so under a policy made of
    such keep specs every archive is yielded for deletion. *)
Theorem zero_counts_delete_everything (arcs : list Archive) (kss : list KeepSpec) :
  Forall (fun k => num k = 0) kss ->
  (forall k, In k kss -> arc_names_to_keep (fst (arc_names_to_delete arcs kss)) k = []) /\
  snd (arc_names_to_delete arcs kss) = map name (fst (arc_names_to_delete arcs kss)).
Proof.
  intros Hz. rewrite List.Forall_forall in Hz.
  change (fst (arc_names_to_delete arcs kss)) with (sort_desc arcs).
  split; [intros k Hk; apply keep_loop_zero; auto|].
  rewrite arc_names_to_delete_snd. f_equal. apply filter_all.
  intros a _. apply negb_true_iff.
  destruct (is_retained (sort_desc arcs) kss a) eqn:E; [|reflexivity].
  apply is_retained_In in E. unfold retained in E.
  apply in_flat_map in E as [k [Hk Hin]].
  rewrite keep_loop_zero in Hin by auto. destruct Hin.
Qed.

Lemma zero_counts_delete_everything_witness :
  snd (arc_names_to_delete [arc "2" 2000 1 30; arc "1" 2000 1 31] [ks "d" 0]) =
  map name (fst (arc_names_to_delete [arc "2" 2000 1 30; arc "1" 2000 1 31] [ks "d" 0])).
Proof.
  apply (zero_counts_delete_everything
           [arc "2" 2000 1 30; arc "1" 2000 1 31] [ks "d" 0]).
  repeat constructor.
Defined.

Lemma kept_loop_covers k l : forall n prev,
  n + Z.of_nat (List.length l) <= num k ->
  forall a, In a l ->
    (exists x, In x (kept_loop k n prev l) /\ bucket k x = bucket k a) \/
    prev = Some (bucket k a).
Proof.
  induction l as [|x l IH]; intros n prev Hn a Ha; [destruct Ha|].
  cbn [List.length] in Hn. cbn [kept_loop]. fold (bucket k x).
  destruct (Z.eqb_spec n (num k)) as [E|_]; [lia|].
  destruct (same_ts prev (bucket k x)) eqn:Es; cbn [negb].
  - assert (prev = Some (bucket k x)) as Hprev.
    { destruct prev as [p|]; cbn [same_ts] in Es; [|discriminate].
      apply String.eqb_eq in Es. now subst. }
    destruct Ha as [<-|Ha]; [now right|].
    apply IH; [lia|assumption].
  - destruct Ha as [<-|Ha]; [left; exists x; split; [now left|reflexivity]|].
    destruct (IH (n + 1) (Some (bucket k x)) ltac:(lia) a Ha) as [[y [Hy Hb]]|Hp].
    + left. exists y. split; [now right|assumption].
    + left. exists x. split; [now left|]. now injection Hp.
Qed.

(** X3: a count that is at least the number of archives stops nothing: every
    bucket key that occurs among the archives is the bucket key of an
    archive that is kept. *)
Theorem large_count_keeps_every_bucket (arcs : list Archive) (k : KeepSpec) :
  Z.of_nat (List.length arcs) <= num k ->
  forall a, In a arcs ->
    exists x, In x (kept_arcs arcs k) /\ bucket k x = bucket k a /\
              In (name x) (arc_names_to_keep arcs k).
Proof.
  intros Hn a Ha.
  destruct (kept_loop_covers k arcs 0 None ltac:(lia) a Ha) as [[x [Hx Hb]]|Hp];
    [|discriminate].
  exists x. split; [assumption|]. split; [assumption|].
  unfold arc_names_to_keep. rewrite keep_loop_names. now apply in_map.
Qed.

Lemma large_count_keeps_every_bucket_witness :
  exists x, In x (kept_arcs march_to_january (ks "mon" 5)) /\
            bucket (ks "mon" 5) x = bucket (ks "mon" 5) (arc "4" 2000 2 1) /\
            In (name x) (arc_names_to_keep march_to_january (ks "mon" 5)).
Proof.
  apply (large_count_keeps_every_bucket march_to_january (ks "mon" 5)).
  - cbn. lia.
  - cbn. tauto.
Defined.

Lemma keep_loop_count_prefix pat (N M : Z) l : forall c prev,
  c <= N -> N <= M ->
  exists more,
    keep_loop (mkKeepSpec pat M) c prev l =
    (keep_loop (mkKeepSpec pat N) c prev l ++ more)%list.
Proof.
  induction l as [|a l IH]; intros c prev Hc HM; [exists []; reflexivity|].
  cbn [keep_loop num timepattern].
  destruct (Z.eqb_spec c N) as [->|Hne].
  - eexists. reflexivity.
  - destruct (Z.eqb_spec c M) as [->|_]; [lia|].
    destruct (negb (same_ts prev (strftime pat (timestamp a)))).
    + destruct (IH (c + 1) (Some (strftime pat (timestamp a))) ltac:(lia) HM)
        as [more ->].
      exists more. reflexivity.
    + apply IH; lia.
Qed.

(** X4: raising the count of a keep spec only adds names, after those it
    already yielded. *)
Theorem larger_count_keeps_more (arcs : list Archive) (pat : string) (N M : Z) :
  0 <= N -> N <= M ->
  exists more,
    arc_names_to_keep arcs (mkKeepSpec pat M) =
    (arc_names_to_keep arcs (mkKeepSpec pat N) ++ more)%list.
Proof. intros H0 HM. now apply keep_loop_count_prefix. Qed.

Lemma larger_count_keeps_more_witness :
  exists more,
    arc_names_to_keep march_to_january (mkKeepSpec "%Y-%m" 3) =
    (arc_names_to_keep march_to_january (mkKeepSpec "%Y-%m" 2) ++ more)%list.
Proof. apply larger_count_keeps_more; lia. Defined.

Lemma filter_filter_and {A} (f g : A -> bool) l :
  List.filter f (List.filter g l) = List.filter (fun a => g a && f a) l.
Proof.
  induction l as [|a l IH]; cbn [List.filter]; [reflexivity|].
  destruct (g a); cbn [List.filter andb]; [|assumption].
  destruct (f a); now rewrite IH.
Qed.

Lemma filter_map_name (p : string -> bool) (l : list Archive) :
  List.filter p (map name l) = map name (List.filter (fun a => p (name a)) l).
Proof.
  induction l as [|a l IH]; cbn [map List.filter]; [reflexivity|].
  destruct (p (name a)); cbn [map]; now rewrite IH.
Qed.

(** X5: adding keep specs to a policy only removes names from what is yielded
    for deletion: exactly the names the added keep specs retain. *)
Theorem more_keep_specs_delete_less (arcs : list Archive) (kss extra : list KeepSpec) :
  snd (arc_names_to_delete arcs (kss ++ extra)) =
  List.filter
    (fun n => negb (existsb (String.eqb n)
                      (retained (fst (arc_names_to_delete arcs kss)) extra)))
    (snd (arc_names_to_delete arcs kss)).
Proof.
  change (fst (arc_names_to_delete arcs kss)) with (sort_desc arcs).
  rewrite !arc_names_to_delete_snd, filter_map_name, filter_filter_and.
  f_equal. apply filter_ext_all. intros a.
  unfold is_retained, retained. rewrite flat_map_app, existsb_app.
  apply negb_orb.
Qed.

(** * Further properties of the parsers *)

Lemma dict_get_In_values {V} (d : list (string * V)) b v :
  dict_get d b = Some v -> In v (dict_values d).
Proof.
  induction d as [|[k x] d IH]; cbn [dict_get dict_values map snd]; [discriminate|].
  destruct (String.eqb k b); [intros [= ->]; now left|].
  intros H. right. now apply IH.
Qed.

Lemma parse_keep_specs_Forall2 spec kss :
  parse_keep_specs spec = Ok kss -> Forall2 token_spec (split "," spec) kss.
Proof.
  intros H.
  destruct (parse_keep_specs_cases spec)
    as [[_ [kss' [H1 H2]]]|[pre [tok [post [_ [_ [[_ E]|[_ [_ E]]]]]]]]].
  - rewrite H1 in H. injection H as <-. exact H2.
  - rewrite E in H. discriminate.
  - rewrite E in H. discriminate.
Qed.

Lemma token_spec_pattern tok k :
  token_spec tok k -> In (timepattern k) (dict_values TIME_PATTERNS) /\ 0 <= num k.
Proof.
  intros [ds [tag [_ [_ [_ [Hpat [_ Hnum]]]]]]].
  split; [|assumption]. eapply dict_get_In_values; eassumption.
Qed.

(** X6: what [parse_keep_specs] returns has one keep spec per
    comma-separated token, each with a pattern of [TIME_PATTERNS] and a
    count that is not negative. *)
Theorem parse_keep_specs_well_formed (spec : string) (kss : list KeepSpec) :
  parse_keep_specs spec = Ok kss ->
  List.length kss = List.length (split "," spec) /\
  Forall (fun k => In (timepattern k) (dict_values TIME_PATTERNS) /\ 0 <= num k) kss.
Proof.
  intros H. apply parse_keep_specs_Forall2 in H.
  induction H as [|tok k toks kss Hk _ IH]; [split; constructor|].
  destruct IH as [Hlen Hall]. split; [cbn; now rewrite Hlen|].
  constructor; [|assumption]. eapply token_spec_pattern; eassumption.
Qed.

Lemma parse_keep_specs_well_formed_witness :
  List.length [ks "d" 2; ks "w" 5; ks "mon" 4] = List.length (split "," "2d,5w,4mon") /\
  Forall (fun k => In (timepattern k) (dict_values TIME_PATTERNS) /\ 0 <= num k)
         [ks "d" 2; ks "w" 5; ks "mon" 4].
Proof.
  apply (parse_keep_specs_well_formed "2d,5w,4mon"). vm_compute. reflexivity.
Defined.

Lemma all_tail_chars_strip_run s :
  all_chars is_name_tail_char (strip_run s) = true ->
  all_chars is_name_tail_char s = true.
Proof.
  induction s as [|a s IH]; [reflexivity|].
  cbn [strip_run]. destruct (is_suffix_run (String a s)) eqn:Erun.
  - intros _. cbn [is_suffix_run] in Erun. apply andb_true_iff in Erun as [Ha Hs].
    cbn [all_chars]. apply andb_true_iff. split; [|assumption].
    apply Ascii.eqb_eq in Ha. subst a. reflexivity.
  - cbn [all_chars]. intros H. apply andb_true_iff in H as [Ha Hs].
    apply andb_true_iff. auto.
Qed.

Lemma strip_run_idem s : strip_run (strip_run s) = strip_run s.
Proof.
  induction s as [|a s IH]; [reflexivity|].
  cbn [strip_run]. destruct (is_suffix_run (String a s)) eqn:Erun; [reflexivity|].
  cbn [strip_run]. rewrite IH.
  destruct (is_suffix_run (String a (strip_run s))) eqn:E; [|reflexivity].
  exfalso. cbn [is_suffix_run] in E, Erun.
  apply andb_true_iff in E as [Ha Hs].
  rewrite Ha, (all_tail_chars_strip_run _ Hs) in Erun. discriminate.
Qed.

(** X7: a base name is its own base name: what [NAME_RE] leaves in group 1 has
    no trailing run of a dash, digits and dashes left to strip. *)
Theorem base_name_idempotent (n b : string) :
  base_name n = Some b -> base_name b = Some b.
Proof.
  unfold base_name. rewrite !fullmatch_NAME_RE.
  destruct (all_chars not_newline (strip_run n)) eqn:E; [|discriminate].
  cbn [group Nat.eqb]. intros [= <-].
  now rewrite strip_run_idem, E.
Qed.

Lemma base_name_idempotent_witness : base_name "name" = Some "name".
Proof. apply (base_name_idempotent "name-20200101-1200"). reflexivity. Defined.

Lemma strptime_valid s t :
  strptime s = Some t -> valid_datetime t = true /\ microsecond t = 0.
Proof.
  unfold strptime. destruct (re_match strptime_regex s) as [[c rest]|]; [|discriminate].
  destruct (negb (is_empty rest)); [discriminate|].
  match goal with |- context [valid_datetime ?x] => destruct (valid_datetime x) eqn:E end;
    [|discriminate].
  intros [= <-]. split; [exact E|reflexivity].
Qed.

Lemma parse_lines_valid lines : forall arcs,
  parse_lines lines = Ok arcs ->
  Forall (fun a => valid_datetime (timestamp a) = true) arcs.
Proof.
  intros arcs H. apply parse_lines_archives in H.
  induction H as [|line a lines arcs [ts [_ Hts]] _ IH]; constructor; [|assumption].
  now apply strptime_valid in Hts.
Qed.

Lemma concat_values_dd_append d base a :
  Permutation (concat (dict_values (dd_append d base a))) (a :: concat (dict_values d)).
Proof.
  induction d as [|[k v] d IH]; cbn [dd_append dict_values map snd concat].
  - reflexivity.
  - destruct (String.eqb k base); cbn [dict_values map snd concat].
    + rewrite <- app_assoc. cbn [app].
      rewrite <- Permutation_middle. reflexivity.
    + fold (dict_values (dd_append d base a)). fold (dict_values d).
      rewrite IH. rewrite <- Permutation_middle. reflexivity.
Qed.

Lemma concat_values_fold arcs : forall d,
  Permutation (concat (dict_values (fold_left file_archive arcs d)))
              (concat (dict_values d) ++ arcs).
Proof.
  induction arcs as [|a arcs IH]; intros d; cbn [fold_left].
  - now rewrite app_nil_r.
  - rewrite IH. unfold file_archive. rewrite concat_values_dd_append.
    cbn [app]. apply Permutation_middle.
Qed.

Lemma keys_ok_values d : keys_ok d -> Forall (fun l => l <> []) (dict_values d).
Proof.
  intros [Hnd Hne]. induction d as [|[k v] d IH]; [constructor|].
  cbn [dict_values map snd]. constructor.
  - intros ->. apply (Hne k). cbn [dict_get]. now rewrite String.eqb_refl.
  - apply IH.
    + cbn [dict_keys map fst] in Hnd. now inversion Hnd.
    + intros b Hb. apply (Hne b). cbn [dict_get].
      destruct (String.eqb_spec k b) as [->|]; [|assumption].
      cbn [dict_keys map fst] in Hnd. inversion Hnd as [|? ? Hin _]; subst.
      exfalso. apply Hin. apply dict_get_In_keys. congruence.
Qed.

(** X8: the families of a listing that parses hold each archive of the listing
    exactly once, one archive per line, and no family is empty. *)
Theorem parse_arcs_partition (listing : string) (d : list (string * list Archive)) :
  parse_arcs listing = Ok d ->
  exists arcs,
    Forall2 (fun line a => exists ts_str,
               split TAB line = [name a; ts_str] /\
               strptime ts_str = Some (timestamp a))
            (splitlines listing) arcs /\
    Permutation (concat (dict_values d)) arcs /\
    Forall (fun l => l <> []) (dict_values d) /\
    Forall (fun a => valid_datetime (timestamp a) = true /\
                     microsecond (timestamp a) = 0) arcs.
Proof.
  rewrite parse_arcs_lines.
  destruct (parse_lines (splitlines listing)) as [arcs|e] eqn:E; [|discriminate].
  intros [= <-]. exists arcs.
  pose proof (parse_lines_archives _ _ E) as Hlines.
  split; [assumption|]. split; [apply (concat_values_fold arcs [])|].
  split.
  - apply keys_ok_values.
    exact (keys_ok_fold (fun a => strip_run (name a)) arcs [] keys_ok_empty).
  - clear E. induction Hlines as [|line a lines arcs' [ts [_ Hts]] _ IH];
      constructor; [|assumption].
    now apply strptime_valid in Hts.
Qed.

Lemma parse_arcs_partition_witness :
  exists arcs,
    Forall2 (fun line a => exists ts_str,
               split TAB line = [name a; ts_str] /\
               strptime ts_str = Some (timestamp a))
            (splitlines listing_r2) arcs /\
    Permutation (concat (dict_values
      [("foo", [mkArchive "foo" (mkdt 2000 1 1 0 0 0 0);
                mkArchive "foo-123" (mkdt 1999 2 2 3 0 0 0)]);
       ("bar", [mkArchive "bar-123" (mkdt 1999 2 2 3 0 0 0)])])) arcs /\
    Forall (fun l => l <> []) (dict_values
      [("foo", [mkArchive "foo" (mkdt 2000 1 1 0 0 0 0);
                mkArchive "foo-123" (mkdt 1999 2 2 3 0 0 0)]);
       ("bar", [mkArchive "bar-123" (mkdt 1999 2 2 3 0 0 0)])]) /\
    Forall (fun a => valid_datetime (timestamp a) = true /\
                     microsecond (timestamp a) = 0) arcs.
Proof.
  apply (parse_arcs_partition listing_r2). vm_compute. reflexivity.
Defined.

Lemma family_archives_valid listing d base arcs :
  parse_arcs listing = Ok d -> dict_get d base = Some arcs ->
  Forall (fun a => valid_datetime (timestamp a) = true) arcs.
Proof.
  rewrite parse_arcs_lines.
  destruct (parse_lines (splitlines listing)) as [all|e] eqn:E; [|discriminate].
  intros [= <-] Hget. apply List.Forall_forall. intros a Ha.
  pose proof (parse_lines_valid _ _ E) as Hv. rewrite List.Forall_forall in Hv.
  apply Hv. apply (Permutation_in _ (concat_values_fold all [])).
  apply in_concat. exists arcs. split; [|assumption].
  eapply dict_get_In_values; eassumption.
Qed.

(** X9: what the parsers return meets what the selector needs: for every family
    of a parsed listing and every keep spec of a parsed policy, on the
    family as [arc_names_to_delete] sorts it, the keep spec retains at
    most its count of archives, of pairwise different bucket keys, each
    the newest archive of the family with its bucket key. *)
Theorem parsed_input_meets_selector
    (listing spec : string) (d : list (string * list Archive)) (kss : list KeepSpec) :
  parse_arcs listing = Ok d -> parse_keep_specs spec = Ok kss ->
  forall base arcs k, dict_get d base = Some arcs -> In k kss ->
    let sorted := fst (arc_names_to_delete arcs kss) in
    arc_names_to_keep sorted k = map name (kept_arcs sorted k) /\
    Z.of_nat (List.length (arc_names_to_keep sorted k)) <= num k /\
    List.NoDup (map (bucket k) (kept_arcs sorted k)) /\
    (forall a, In a (kept_arcs sorted k) ->
       In a arcs /\
       forall b, In b arcs -> bucket k b = bucket k a ->
                 dt_le (timestamp b) (timestamp a)).
Proof.
  intros Hd Hk base arcs k Hget Hin. cbn zeta.
  change (fst (arc_names_to_delete arcs kss)) with (sort_desc arcs).
  apply parse_keep_specs_Forall2 in Hk.
  assert (exists tok, token_spec tok k) as [tok Htok].
  { clear - Hk Hin. induction Hk as [|tok k' toks kss Hk' _ IH]; [destruct Hin|].
    destruct Hin as [<-|Hin]; eauto. }
  destruct (token_spec_pattern _ _ Htok) as [Hpat Hnum].
  pose proof (family_archives_valid _ _ _ _ Hd Hget) as Hv.
  pose proof (sort_desc_perm arcs) as Hperm.
  assert (Forall (fun a => valid_datetime (timestamp a) = true) (sort_desc arcs)) as Hv'.
  { rewrite List.Forall_forall in *. intros a Ha. apply Hv.
    eapply Permutation_in; [apply Permutation_sym, Hperm|assumption]. }
  pose proof (convex_on_patterns k _ Hpat Hv') as Hc.
  pose proof (sort_desc_sorted arcs) as Hs.
  split; [apply keep_loop_names|]. split.
  { unfold arc_names_to_keep. rewrite keep_loop_names, length_map.
    pose proof (kept_loop_length k (sort_desc arcs) 0 None Hnum). lia. }
  split; [now apply kept_loop_buckets_distinct|].
  intros a Ha. destruct (kept_arcs_newest k _ a Hs Hc Ha) as [Hina Hnew].
  split.
  - eapply Permutation_in; [apply Permutation_sym, Hperm|assumption].
  - intros b Hb. apply Hnew. eapply Permutation_in; [apply Hperm|assumption].
Qed.

Lemma parsed_input_meets_selector_witness :
  Z.of_nat (List.length
    (arc_names_to_keep
       (fst (arc_names_to_delete
               [mkArchive "foo" (mkdt 2000 1 1 0 0 0 0);
                mkArchive "foo-123" (mkdt 1999 2 2 3 0 0 0)]
               [ks "d" 2; ks "w" 5; ks "mon" 4]))
       (ks "d" 2))) <= 2.
Proof.
  assert (parse_arcs listing_r2 =
          Ok [("foo", [mkArchive "foo" (mkdt 2000 1 1 0 0 0 0);
                       mkArchive "foo-123" (mkdt 1999 2 2 3 0 0 0)]);
              ("bar", [mkArchive "bar-123" (mkdt 1999 2 2 3 0 0 0)])]) as Hd
    by (vm_compute; reflexivity).
  assert (parse_keep_specs "2d,5w,4mon" = Ok [ks "d" 2; ks "w" 5; ks "mon" 4]) as Hk
    by (vm_compute; reflexivity).
  apply (parsed_input_meets_selector _ _ _ _ Hd Hk "foo"
           [mkArchive "foo" (mkdt 2000 1 1 0 0 0 0);
            mkArchive "foo-123" (mkdt 1999 2 2 3 0 0 0)] (ks "d" 2)).
  - reflexivity.
  - now left.
Defined.

(** * The tarsnap commands *)

Lemma file_args_flat_map filenames :
  file_args filenames = flat_map (fun fn => ["-f"; fn]) filenames.
Proof.
  unfold file_args.
  assert (forall acc, fold_left (fun file_args fn => (file_args ++ ["-f"; fn])%list)
                        filenames acc =
                      (acc ++ flat_map (fun fn => ["-f"; fn]) filenames)%list) as H.
  { induction filenames as [|fn rest IH]; intros acc; cbn [fold_left flat_map].
    - now rewrite app_nil_r.
    - rewrite IH, <- app_assoc. reflexivity. }
  apply (H []).
Qed.

Lemma flat_map_f_inj l : forall l',
  flat_map (fun fn : string => ["-f"; fn]) l = flat_map (fun fn => ["-f"; fn]) l' ->
  l = l'.
Proof.
  induction l as [|x l IH]; intros [|y l']; cbn [flat_map app]; try discriminate; auto.
  intros [= -> H]. f_equal. now apply IH.
Qed.

(** X10: [Tarsnap.delete] runs [tarsnap], the key file option when there is a
    key file, [-d], and each file name as the argument of its own [-f], in
    the order given; the names can be read back from the command. *)
Theorem delete_command_names (keyfile : option string) (filenames : list string) :
  delete_command keyfile filenames =
    ("tarsnap" :: match keyfile with Some k => ["--keyfile"; k] | None => [] end ++
     "-d" :: flat_map (fun fn => ["-f"; fn]) filenames)%list /\
  List.length (delete_command keyfile filenames) =
    (List.length (base_command keyfile) + 1 + 2 * List.length filenames)%nat /\
  (forall filenames',
     delete_command keyfile filenames = delete_command keyfile filenames' ->
     filenames = filenames') /\
  delete_command keyfile filenames <> list_archives_command keyfile.
Proof.
  unfold delete_command, list_archives_command, tarsnap_command.
  rewrite file_args_flat_map. split; [reflexivity|]. split; [|split].
  - rewrite length_app. cbn [List.length].
    assert (List.length (flat_map (fun fn : string => ["-f"; fn]) filenames) =
            (2 * List.length filenames)%nat) as ->; [|lia].
    induction filenames as [|fn rest IH]; cbn [flat_map app List.length]; lia.
  - intros filenames'. rewrite file_args_flat_map. intros H.
    apply app_inv_head in H. injection H as H. now apply flat_map_f_inj.
  - intros H. apply app_inv_head in H. discriminate H.
Qed.

(** * remaining_arc_names *)

Lemma add_arc_names_elem n arcs : forall s : gset string,
  n ∈ add_arc_names s arcs <-> n ∈ s \/ exists a, In a arcs /\ name a = n.
Proof.
  unfold add_arc_names. induction arcs as [|a arcs IH]; intros s; cbn [fold_left].
  - split; [auto|]. intros [H|[a [[] _]]]. exact H.
  - rewrite IH, elem_of_union, elem_of_singleton. split.
    + intros [[->|H]|[b [Hb Hn]]]; [right; exists a; split; [now left|reflexivity]
                                   |now left|right; exists b; split; [now right|assumption]].
    + intros [H|[b [[->|Hb] Hn]]]; [left; now right|left; left; now symmetry|right; eauto].
Qed.

Lemma all_arc_names_elem n values : forall s : gset string,
  n ∈ fold_left add_arc_names values s <->
  n ∈ s \/ exists a, In a (concat values) /\ name a = n.
Proof.
  induction values as [|arcs values IH]; intros s; cbn [fold_left concat].
  - split; [auto|]. intros [H|[a [[] _]]]. exact H.
  - rewrite IH, add_arc_names_elem. split.
    + intros [[H|[a [Ha Hn]]]|[a [Ha Hn]]]; [now left| |];
        right; exists a; (split; [apply in_app_iff; auto|assumption]).
    + intros [H|[a [Ha Hn]]]; [left; now left|].
      apply in_app_iff in Ha as [Ha|Ha]; [left; right; eauto|right; eauto].
Qed.

Lemma remove_names_ok to_delete : forall (s r : gset string),
  remove_names s to_delete = Ok r ->
  List.NoDup to_delete /\ (forall n, In n to_delete -> n ∈ s) /\
  (forall x, x ∈ r <-> x ∈ s /\ ~ In x to_delete).
Proof.
  induction to_delete as [|n rest IH]; intros s r; cbn [remove_names].
  - intros [= <-]. split; [constructor|]. split; [intros n []|].
    intros x. split; [intros H; split; [assumption|intros []]|now intros [H _]].
  - destruct (decide (n ∈ s)) as [Hin|Hout]; [|discriminate].
    intros H. apply IH in H as [Hnd [Hsub Hr]]. split; [|split].
    + constructor; [|assumption]. intros Hn. apply Hsub in Hn.
      apply elem_of_difference in Hn as [_ Hn]. apply Hn. now apply elem_of_singleton.
    + intros m [<-|Hm]; [assumption|].
      apply Hsub in Hm. now apply elem_of_difference in Hm as [Hm _].
    + intros x. rewrite Hr, elem_of_difference, elem_of_singleton. cbn [In].
      split.
      * intros [[Hx Hne] Hrest]. split; [assumption|]. intros [->|H]; auto.
      * intros [Hx Hno]. split; [split; [assumption|]|]; intros H; apply Hno; auto.
Qed.

Lemma remove_names_total to_delete : forall s : gset string,
  List.NoDup to_delete -> (forall n, In n to_delete -> n ∈ s) ->
  exists r, remove_names s to_delete = Ok r.
Proof.
  induction to_delete as [|n rest IH]; intros s Hnd Hsub; cbn [remove_names]; [eauto|].
  inversion Hnd as [|? ? Hn Hrest]; subst.
  destruct (decide (n ∈ s)) as [Hin|Hout]; [|exfalso; apply Hout, Hsub; now left].
  apply IH; [assumption|]. intros m Hm.
  apply elem_of_difference. split; [apply Hsub; now right|].
  rewrite elem_of_singleton. intros ->. contradiction.
Qed.

Lemma remove_names_error to_delete : forall (s : gset string) e,
  remove_names s to_delete = Raise e -> exists n, e = KeyError n /\ In n to_delete.
Proof.
  induction to_delete as [|n rest IH]; intros s e; cbn [remove_names]; [discriminate|].
  destruct (decide (n ∈ s)).
  - intros H. apply IH in H as [m [-> Hm]]. exists m. split; [reflexivity|now right].
  - intros [= <-]. exists n. split; [reflexivity|now left].
Qed.

(** X11: [remaining_arc_names] returns exactly when the names to delete are
    pairwise different names of archives of the mapping; what it returns
    is then the set of the other names.  Otherwise it raises [KeyError]
    for one of the names to delete. *)
Theorem remaining_arc_names_spec
    (arcs_dict : list (string * list Archive)) (to_delete : list string) :
  ((exists r, remaining_arc_names arcs_dict to_delete = Ok r) <->
   List.NoDup to_delete /\
   forall n, In n to_delete -> exists a, In a (all_archives arcs_dict) /\ name a = n) /\
  (forall r, remaining_arc_names arcs_dict to_delete = Ok r ->
     forall x, x ∈ r <->
       (exists a, In a (all_archives arcs_dict) /\ name a = x) /\ ~ In x to_delete) /\
  (forall e, remaining_arc_names arcs_dict to_delete = Raise e ->
     exists n, e = KeyError n /\ In n to_delete).
Proof.
  unfold remaining_arc_names, all_archives.
  assert (forall n, n ∈ fold_left add_arc_names (dict_values arcs_dict) (∅ : gset string) <->
                    exists a, In a (concat (dict_values arcs_dict)) /\ name a = n) as Hall.
  { intros n. rewrite all_arc_names_elem, elem_of_empty. tauto. }
  split; [|split].
  - split.
    + intros [r H]. apply remove_names_ok in H as [Hnd [Hsub _]].
      split; [assumption|]. intros n Hn. apply Hall. auto.
    + intros [Hnd Hsub]. apply remove_names_total; [assumption|].
      intros n Hn. apply Hall. auto.
  - intros r H x. apply remove_names_ok in H as [_ [_ Hr]].
    rewrite Hr, Hall. reflexivity.
  - intros e. apply remove_names_error.
Qed.

(** * The run *)

Lemma collect_to_delete_spec kss d : forall acc,
  collect_to_delete d kss acc = (sort_families d, (acc ++ names_to_delete d kss)%list).
Proof.
  unfold names_to_delete.
  induction d as [|[base arcs] d IH]; intros acc;
    cbn [collect_to_delete sort_families map dict_values snd fst flat_map].
  - now rewrite app_nil_r.
  - unfold arc_names_to_delete at 1. rewrite IH. cbn [fst snd].
    unfold arc_names_to_delete at 2. cbn [snd]. now rewrite <- app_assoc.
Qed.

Lemma commands_app e1 e2 : commands (e1 ++ e2) = (commands e1 ++ commands e2)%list.
Proof.
  induction e1 as [|[line|cmd tz] e1 IH]; cbn [app commands]; [reflexivity|assumption|].
  now rewrite IH.
Qed.

Lemma commands_print_arcs l : commands (print_arcs l) = [].
Proof.
  unfold print_arcs. induction (sorted l) as [|x xs IH]; [reflexivity|exact IH].
Qed.

Lemma commands_report_action d to_delete dry :
  commands (fst (report_action d to_delete dry)) = [].
Proof.
  unfold report_action. cbn zeta.
  destruct (remaining_arc_names d to_delete); cbn [fst].
  - rewrite commands_app. cbn [commands]. now rewrite !commands_print_arcs.
  - cbn [commands]. apply commands_print_arcs.
Qed.

(** ** The two commands *)

(** What [Tarsnap.list_archives] does, by what Python and the operating
    system make of its command. *)
Lemma list_archives_cases os keyfile :
  (existsb has_null (list_archives_command keyfile) = true /\
   Tarsnap.list_archives os keyfile = ([], Raise ValueError_null_byte)) \/
  (existsb has_null (list_archives_command keyfile) = false /\
   ((exists errno,
       os (list_archives_command keyfile) (Some "UTC") = CannotStart errno /\
       Tarsnap.list_archives os keyfile = ([], Raise (OSError errno))) \/
    (exists rc out,
       os (list_archives_command keyfile) (Some "UTC") = Exited rc out /\ rc <> 0 /\
       Tarsnap.list_archives os keyfile =
         ([Ran (list_archives_command keyfile) (Some "UTC")],
          Raise (CalledProcessError (list_archives_command keyfile) rc))) \/
    (exists out,
       os (list_archives_command keyfile) (Some "UTC") = Exited 0 out /\
       Tarsnap.list_archives os keyfile =
         ([Ran (list_archives_command keyfile) (Some "UTC")], Ok out)))).
Proof.
  unfold Tarsnap.list_archives, Tarsnap._run, subprocess_run.
  fold (list_archives_command keyfile).
  destruct (existsb has_null (list_archives_command keyfile)); [left; now split|].
  right. split; [reflexivity|].
  destruct (os (list_archives_command keyfile) (Some "UTC")) as [errno|rc out].
  - left. eauto.
  - right. destruct (Z.eqb_spec rc 0) as [->|Hrc]; cbn [andb negb].
    + right. eauto.
    + left. exists rc, out. auto.
Qed.

Lemma list_archives_ok os keyfile arcs_str :
  snd (Tarsnap.list_archives os keyfile) = Ok arcs_str ->
  existsb has_null (list_archives_command keyfile) = false /\
  os (list_archives_command keyfile) (Some "UTC") = Exited 0 arcs_str /\
  Tarsnap.list_archives os keyfile =
    ([Ran (list_archives_command keyfile) (Some "UTC")], Ok arcs_str).
Proof.
  intros H.
  destruct (list_archives_cases os keyfile)
    as [[_ E]|[Hnul [[errno [_ E]]|[[rc [out [_ [_ E]]]]|[out [Hos E]]]]]];
    rewrite E in H; cbn [snd] in H; try discriminate.
  injection H as ->. auto.
Qed.



(** The run once the keep specs, the listing command and the listing are
    through. *)
Lemma run_listed os keep_specs_str keyfile dry_run kss arcs_str d :
  parse_keep_specs keep_specs_str = Ok kss ->
  snd (Tarsnap.list_archives os keyfile) = Ok arcs_str ->
  parse_arcs arcs_str = Ok d ->
  run os keep_specs_str keyfile dry_run =
    let listed := Ran (list_archives_command keyfile) (Some "UTC") in
    let to_delete := names_to_delete d kss in
    match report_action (sort_families d) to_delete dry_run with
    | (reported, Raise e) => (listed :: reported, Raise e)
    | (reported, Ok _) =>
        if dry_run then (listed :: reported, Ok tt)
        else if (0 <? List.length to_delete)%nat then
          (listed :: reported ++
             Printed ("Deleting " +:+ str_of_nat (List.length to_delete)
                      +:+ " archive" +:+ plural_s (List.length to_delete) +:+ "...")
             :: fst (Tarsnap.delete os keyfile to_delete),
           snd (Tarsnap.delete os keyfile to_delete))%list
        else (listed :: reported ++ [Printed "Nothing to delete."], Ok tt)%list
    end.
Proof.
  intros Hk Hl Hd. apply list_archives_ok in Hl as [_ [_ Hl]].
  unfold run. rewrite Hk, Hl, Hd, collect_to_delete_spec. cbn [app]. cbn zeta.
  destruct (report_action (sort_families d) (names_to_delete d kss) dry_run)
    as [reported [[]|e]]; [|reflexivity].
  destruct dry_run; [reflexivity|].
  destruct (0 <? List.length (names_to_delete d kss))%nat; [|reflexivity].
  destruct (Tarsnap.delete os keyfile (names_to_delete d kss)); reflexivity.
Qed.



Lemma dict_get_of_value {V} (d : list (string * V)) v :
  List.NoDup (dict_keys d) -> In v (dict_values d) -> exists k, dict_get d k = Some v.
Proof.
  induction d as [|[k x] d IH]; cbn [dict_keys dict_values map fst snd]; [intros _ []|].
  intros Hnd [->|Hin].
  - exists k. cbn [dict_get]. now rewrite String.eqb_refl.
  - inversion Hnd as [|? ? Hk Hrest]; subst.
    destruct (IH Hrest Hin) as [k' Hget]. exists k'. cbn [dict_get].
    destruct (String.eqb_spec k k') as [->|]; [|assumption].
    exfalso. apply Hk. apply dict_get_In_keys. congruence.
Qed.

(** The mapping of a listing that parses: its keys are pairwise different,
    and a family holds archives of its own base name only. *)
Lemma parse_arcs_structure listing d :
  parse_arcs listing = Ok d ->
  keys_ok d /\
  forall base arcs, dict_get d base = Some arcs ->
    forall a, In a arcs -> base_name (name a) = Some base.
Proof.
  rewrite parse_arcs_lines.
  destruct (parse_lines (splitlines listing)) as [all|e] eqn:E; [|discriminate].
  intros [= <-].
  pose proof (keys_ok_fold (fun a => strip_run (name a)) all [] keys_ok_empty) as Hok.
  split; [exact Hok|].
  intros base arcs Hget a Ha.
  pose proof (parse_lines_names _ _ (lines_not_newline listing) E) as Hnames.
  rewrite List.Forall_forall in Hnames.
  unfold file_archive in Hget.
  rewrite (dict_get_nonempty_family _ _ Hok), family_fold in Hget.
  cbn [family dict_get app] in Hget.
  assert (arcs = List.filter (fun a => String.eqb (strip_run (name a)) base) all) as ->.
  { destruct (List.filter _ all); [discriminate|]. now injection Hget as <-. }
  apply filter_In in Ha as [Ha Hb]. apply String.eqb_eq in Hb.
  rewrite (base_name_strip_run _ (Hnames a Ha)). now rewrite Hb.
Qed.

Lemma arc_names_to_keep_names arcs k n :
  In n (arc_names_to_keep arcs k) -> exists a, In a arcs /\ name a = n.
Proof.
  unfold arc_names_to_keep. rewrite keep_loop_names, in_map_iff.
  intros [a [Hn Ha]]. exists a. split; [|assumption]. eapply kept_loop_In; eassumption.
Qed.

(** A name collected for deletion that is the name of an archive of a
    family was yielded by that family. *)
Lemma deleted_name_of_family listing d kss base arcs n :
  parse_arcs listing = Ok d -> dict_get d base = Some arcs ->
  (exists a, In a arcs /\ name a = n) ->
  In n (names_to_delete d kss) -> In n (snd (arc_names_to_delete arcs kss)).
Proof.
  intros Hd Hget [a [Ha Hn]] Hdel.
  destruct (parse_arcs_structure _ _ Hd) as [[Hnd _] Hfam].
  unfold names_to_delete in Hdel. apply in_flat_map in Hdel as [arcs' [Hin' Hdel]].
  destruct (dict_get_of_value _ _ Hnd Hin') as [base' Hget'].
  pose proof Hdel as Hdel'.
  apply arc_names_to_delete_In in Hdel' as [[a' [Ha' Hn']] _].
  apply (Permutation_in _ (Permutation_sym (sort_desc_perm arcs'))) in Ha'.
  pose proof (Hfam _ _ Hget a Ha) as Hb. pose proof (Hfam _ _ Hget' a' Ha') as Hb'.
  rewrite Hn in Hb. rewrite Hn' in Hb'.
  assert (base = base') as <- by congruence.
  assert (arcs' = arcs) as -> by congruence.
  exact Hdel.
Qed.

(** X13: no archive name that a keep spec retains in its family is among
    the names a run collects for deletion. *)
Theorem run_spares_retained_names
    (listing : string) (d : list (string * list Archive)) (kss : list KeepSpec) :
  parse_arcs listing = Ok d ->
  forall base arcs k n,
    dict_get d base = Some arcs -> In k kss ->
    In n (arc_names_to_keep (fst (arc_names_to_delete arcs kss)) k) ->
    ~ In n (names_to_delete d kss).
Proof.
  intros Hd base arcs k n Hget Hk Hkeep Hdel.
  change (fst (arc_names_to_delete arcs kss)) with (sort_desc arcs) in Hkeep.
  destruct (arc_names_to_keep_names _ _ _ Hkeep) as [a [Ha Hn]].
  apply (Permutation_in _ (Permutation_sym (sort_desc_perm arcs))) in Ha.
  apply (deleted_name_of_family _ _ _ _ _ _ Hd Hget) in Hdel; [|eauto].
  apply arc_names_to_delete_In in Hdel as [_ Hno].
  apply Hno. unfold retained. apply in_flat_map. eauto.
Qed.

Lemma run_spares_retained_names_witness :
  ~ In "foo" (names_to_delete
      [("foo", [mkArchive "foo" (mkdt 2000 1 1 0 0 0 0);
                mkArchive "foo-123" (mkdt 1999 2 2 3 0 0 0)]);
       ("bar", [mkArchive "bar-123" (mkdt 1999 2 2 3 0 0 0)])]
      [ks "d" 1]).
Proof.
  apply (run_spares_retained_names listing_r2 _ [ks "d" 1]
           ltac:(vm_compute; reflexivity) "foo"
           [mkArchive "foo" (mkdt 2000 1 1 0 0 0 0);
            mkArchive "foo-123" (mkdt 1999 2 2 3 0 0 0)] (ks "d" 1)).
  - reflexivity.
  - now left.
  - vm_compute. now left.
Defined.

(** X14: when some keep spec has a count other than zero, the newest
    archive of every family is not among the names a run collects for deletion. *)
Theorem run_spares_newest_of_family
    (listing : string) (d : list (string * list Archive)) (kss : list KeepSpec) :
  parse_arcs listing = Ok d ->
  (exists k, In k kss /\ num k <> 0) ->
  forall base arcs, dict_get d base = Some arcs ->
    exists a, In a arcs /\
      (forall b, In b arcs -> dt_le (timestamp b) (timestamp a)) /\
      ~ In (name a) (names_to_delete d kss).
Proof.
  intros Hd [k [Hk Hnum]] base arcs Hget.
  destruct (parse_arcs_structure _ _ Hd) as [[_ Hne] _].
  destruct (sort_desc arcs) as [|a rest] eqn:Es.
  - exfalso. pose proof (sort_desc_perm arcs) as Hp. rewrite Es in Hp.
    apply Permutation_sym, Permutation_nil in Hp. subst arcs. now apply (Hne base).
  - pose proof (sort_desc_perm arcs) as Hperm.
    pose proof (sort_desc_sorted arcs) as Hs. rewrite Es in Hperm, Hs.
    exists a. split; [|split].
    + eapply Permutation_in; [apply Permutation_sym, Hperm|now left].
    + intros b Hb. apply (Permutation_in _ Hperm) in Hb as [<-|Hb]; [apply dt_le_refl|].
      inversion Hs as [|? ? _ Hall]; subst. rewrite List.Forall_forall in Hall.
      now apply Hall.
    + intros Hdel.
      apply (deleted_name_of_family _ _ _ _ _ _ Hd Hget) in Hdel.
      * apply arc_names_to_delete_In in Hdel as [_ Hno]. apply Hno.
        unfold retained. apply in_flat_map. exists k. split; [assumption|].
        rewrite Es, arc_names_to_keep_head by assumption. now left.
      * exists a. split; [|reflexivity].
        eapply Permutation_in; [apply Permutation_sym, Hperm|now left].
Qed.

Lemma run_spares_newest_of_family_witness :
  exists a,
    In a [mkArchive "foo" (mkdt 2000 1 1 0 0 0 0);
          mkArchive "foo-123" (mkdt 1999 2 2 3 0 0 0)] /\
    (forall b, In b [mkArchive "foo" (mkdt 2000 1 1 0 0 0 0);
                     mkArchive "foo-123" (mkdt 1999 2 2 3 0 0 0)] ->
               dt_le (timestamp b) (timestamp a)) /\
    ~ In (name a) (names_to_delete
        [("foo", [mkArchive "foo" (mkdt 2000 1 1 0 0 0 0);
                  mkArchive "foo-123" (mkdt 1999 2 2 3 0 0 0)]);
         ("bar", [mkArchive "bar-123" (mkdt 1999 2 2 3 0 0 0)])]
        [ks "d" 1]).
Proof.
  apply (run_spares_newest_of_family listing_r2 _ [ks "d" 1]
           ltac:(vm_compute; reflexivity)
           ltac:(exists (ks "d" 1); split; [now left|discriminate]) "foo").
  reflexivity.
Defined.










(** X16: when the listing command succeeds and a name is collected for
    deletion twice (two archives of one name, neither retained), the
    report raises [KeyError] while it computes the remaining names, and
    the run stops there: the listing command is the only command it has
    run. *)
Theorem run_stops_on_repeated_name
    (os : system) (keep_specs_str : string) (keyfile : option string)
    (dry_run : bool) (arcs_str : string) (kss : list KeepSpec)
    (d : list (string * list Archive)) :
  parse_keep_specs keep_specs_str = Ok kss ->
  snd (Tarsnap.list_archives os keyfile) = Ok arcs_str ->
  parse_arcs arcs_str = Ok d ->
  ~ List.NoDup (names_to_delete d kss) ->
  (exists n, In n (names_to_delete d kss) /\
             snd (run os keep_specs_str keyfile dry_run) = Raise (KeyError n)) /\
  commands (fst (run os keep_specs_str keyfile dry_run)) =
    [list_archives_command keyfile].
Proof.
  intros Hk Hl Hd Hdup. rewrite (run_listed _ _ _ _ _ _ _ Hk Hl Hd). cbn zeta.
  pose proof (commands_report_action (sort_families d) (names_to_delete d kss) dry_run)
    as Hrep.
  unfold report_action in *. cbn zeta in *.
  destruct (remaining_arc_names (sort_families d) (names_to_delete d kss))
    as [r|e] eqn:Er.
  - exfalso. apply Hdup. unfold remaining_arc_names in Er.
    now apply remove_names_ok in Er as [Hnd _].
  - unfold remaining_arc_names in Er.
    apply remove_names_error in Er as [n [-> Hn]].
    cbn [fst snd commands] in *. rewrite Hrep. split; [eauto|reflexivity].
Qed.

Lemma run_stops_on_repeated_name_witness :
  commands (fst (run
    (tarsnap_stub
       ("x-1" +:+ String TAB "2000-01-03 00:00:00" +:+ String LF
        ("x-2" +:+ String TAB "2000-01-02 00:00:00" +:+ String LF
         ("x-2" +:+ String TAB "2000-01-01 00:00:00" +:+ String LF ""))))
    "1d" None false)) =
  [list_archives_command None].
Proof.
  apply (run_stops_on_repeated_name _ "1d" None false
           ("x-1" +:+ String TAB "2000-01-03 00:00:00" +:+ String LF
            ("x-2" +:+ String TAB "2000-01-02 00:00:00" +:+ String LF
             ("x-2" +:+ String TAB "2000-01-01 00:00:00" +:+ String LF "")))
           [ks "d" 1]
           [("x", [mkArchive "x-1" (mkdt 2000 1 3 0 0 0 0);
                   mkArchive "x-2" (mkdt 2000 1 2 0 0 0 0);
                   mkArchive "x-2" (mkdt 2000 1 1 0 0 0 0)])]).
  - vm_compute. reflexivity.
  - reflexivity.
  - vm_compute. reflexivity.
  - assert (names_to_delete
              [("x", [mkArchive "x-1" (mkdt 2000 1 3 0 0 0 0);
                      mkArchive "x-2" (mkdt 2000 1 2 0 0 0 0);
                      mkArchive "x-2" (mkdt 2000 1 1 0 0 0 0)])] [ks "d" 1]
            = ["x-2"; "x-2"]) as -> by (vm_compute; reflexivity).
    intros H. inversion H as [|? ? Hin _]; subst. apply Hin. now left.
Defined.

(** ** Runs that end in the delete step *)

(** A null character in a name to delete: [subprocess.run] raises before
    any delete command is started. *)
Example run_null_in_name :
  let r := run (tarsnap_stub (listing_of (String "a" (String NUL "")))) "0d" None false in
  snd r = Raise ValueError_null_byte /\
  commands (fst r) = [list_archives_command None].
Proof. vm_compute. split; reflexivity. Qed.

(** The operating system refuses the delete command (error 7, argument
    list too long): the run raises [OSError]. *)
Example run_delete_not_started :
  let r := run (tarsnap_listing_then (listing_of "a") (CannotStart 7)) "0d" None false in
  snd r = Raise (OSError 7) /\
  commands (fst r) = [list_archives_command None].
Proof. vm_compute. split; reflexivity. Qed.

(** The delete command ends with exit status 1: the run returns all the
    same. *)
Example run_delete_fails :
  let r := run (tarsnap_listing_then (listing_of "a") (Exited 1 "")) "0d" None false in
  snd r = Ok tt /\
  commands (fst r) = [list_archives_command None; delete_command None ["a"]].
Proof. vm_compute. split; reflexivity. Qed.

(** The listing command ends with exit status 1, or cannot be started. *)
Example run_listing_fails :
  run (fun _ _ => Exited 1 "") "1d" None false =
    ([Ran (list_archives_command None) (Some "UTC")],
     Raise (CalledProcessError (list_archives_command None) 1)) /\
  run (fun _ _ => CannotStart 2) "1d" None false = ([], Raise (OSError 2)).
Proof. vm_compute. split; reflexivity. Qed.
